(** * Workload synthesis of [dataset/preprocessing/memetracker_convert.py]

    A shallow embedding of the MemeTracker trace converter: the record
    filter, the key padding, the load / thread phase router, [generate_op]
    for the workloads D and E, and the loops over the lines of a file, over
    [file_list] and over the two workload labels.

    Python integers are unbounded; the counters only grow from 0 and are
    kept in [nat], subtractions that can go below zero are done in [Z].
    A file opened for writing is the list of the chunks passed to [write].
    An input line is given by the list of fields [line.split()] returns. *)

From Stdlib Require Import ZArith NArith String Ascii Lia.
From stdpp Require Import base tactics option list strings.

Local Open Scope string_scope.
Local Open Scope nat_scope.
Local Open Scope list_scope.
Local Open Scope stdpp_scope.

(** ** Exceptions and results *)

(** The two exceptions the script can raise: [random.randrange] on an empty
    range, and indexing a list out of range. *)
Inductive pyexn : Type :=
| ValueError
| IndexError.

Inductive outcome (A : Type) : Type :=
| Return (a : A)
| Raise (e : pyexn).
Arguments Return {A} a.
Arguments Raise {A} e.

(** How one pass through the body of [while True] ends. *)
Inductive control : Type :=
| Continue
| Break
| Raised (e : pyexn).

(** ** The [random] module

    [random.random()] returns [k / 2^53] for a 53-bit integer [k]; the model
    returns [k].  [randbelow n] is the draw behind [randrange(0, n)] for a
    positive [n]; its range is the contract of the library. *)
Record RandomGen : Type := {
  rng_state : Type;
  rng_random : rng_state -> N * rng_state;
  rng_randbelow : nat -> rng_state -> nat * rng_state;
  rng_randbelow_lt : forall n g, 0 < n -> (rng_randbelow n g).1 < n
}.

(** [random_num < 0.9]: the double nearest to 0.9 is
    [8106479329266893 / 2^53] (0x1.ccccccccccccdp-1), and both sides are
    doubles with denominator [2^53], so the comparison is one of numerators. *)
Definition lt_0_9 (random_num : N) : bool :=
  (random_num <? 8106479329266893)%N.

(** [random.randrange(0, stop)]: ValueError on an empty range. *)
Definition randrange (R : RandomGen) (stop : nat) (g : rng_state R)
  : outcome nat * rng_state R :=
  if stop =? 0 then (Raise ValueError, g)
  else let '(i, g') := rng_randbelow R stop g in (Return i, g').

(** ** Configuration and state *)

Record config : Type := {
  NUM_THREADS : nat;
  INIT_KEYS : nat;
  PER_THREAD_KEYS : nat;
  KEY_LENGTH : nat
}.

Inductive workload : Type := D | E.

(** [current_state]: the strings "load" and "thread". *)
Inductive phase : Type := load | thread.

Abbreviation file := (list string).

(** The variables of one pass of the [for WORKLOAD] loop.  [emitted] is a
    history variable: the calls of [worker_files[i].write] in program
    order, as (i, (op, query_key)); the program never reads it. *)
Record state (R : RandomGen) : Type := mkState {
  current_state : phase;
  counter : nat;
  current_thread : nat;
  current_file : file;
  current_file_closed : bool;
  worker_files : list file;
  key_buffer : list string;
  inserted_keys : list string;
  rng : rng_state R;
  emitted : list (nat * (string * string))
}.
Arguments mkState {R}.
Arguments current_state {R}.
Arguments counter {R}.
Arguments current_thread {R}.
Arguments current_file {R}.
Arguments current_file_closed {R}.
Arguments worker_files {R}.
Arguments key_buffer {R}.
Arguments inserted_keys {R}.
Arguments rng {R}.
Arguments emitted {R}.

Section Setters.
Context {R : RandomGen}.
Implicit Type st : state R.

Definition set_rng st (g : rng_state R) : state R :=
  mkState (current_state st) (counter st) (current_thread st)
    (current_file st) (current_file_closed st) (worker_files st)
    (key_buffer st) (inserted_keys st) g (emitted st).

Definition set_key_buffer st (kb : list string) : state R :=
  mkState (current_state st) (counter st) (current_thread st)
    (current_file st) (current_file_closed st) (worker_files st)
    kb (inserted_keys st) (rng st) (emitted st).

Definition set_inserted_keys st (ks : list string) : state R :=
  mkState (current_state st) (counter st) (current_thread st)
    (current_file st) (current_file_closed st) (worker_files st)
    (key_buffer st) ks (rng st) (emitted st).

Definition set_counter st (c : nat) : state R :=
  mkState (current_state st) c (current_thread st)
    (current_file st) (current_file_closed st) (worker_files st)
    (key_buffer st) (inserted_keys st) (rng st) (emitted st).

Definition set_current_thread st (t : nat) : state R :=
  mkState (current_state st) (counter st) t
    (current_file st) (current_file_closed st) (worker_files st)
    (key_buffer st) (inserted_keys st) (rng st) (emitted st).

(** [current_state = "thread"; current_file.close()] *)
Definition enter_thread_phase st : state R :=
  mkState thread (counter st) (current_thread st)
    (current_file st) true (worker_files st)
    (key_buffer st) (inserted_keys st) (rng st) (emitted st).

(** [current_file.write(chunk)] *)
Definition write_current_file st (chunk : string) : state R :=
  mkState (current_state st) (counter st) (current_thread st)
    (current_file st ++ [chunk]) (current_file_closed st) (worker_files st)
    (key_buffer st) (inserted_keys st) (rng st) (emitted st).

(** [worker_files[i].write(f"{op} {query_key}\n")], for [i] in range. *)
Definition write_worker st (i : nat) (op query_key : string) (chunk : string)
  : state R :=
  mkState (current_state st) (counter st) (current_thread st)
    (current_file st) (current_file_closed st)
    (alter (fun f => f ++ [chunk]) i (worker_files st))
    (key_buffer st) (inserted_keys st) (rng st)
    (emitted st ++ [(i, (op, query_key))]).
End Setters.

(** ** Key padding and record filter *)

Definition nl : string := String "010"%char EmptyString.

Fixpoint str_repeat (s : string) (n : nat) : string :=
  match n with
  | 0 => ""
  | S n' => s +:+ str_repeat s n'
  end.

(** [s * n] on a string: the empty string for [n <= 0]. *)
Definition str_mul (s : string) (n : Z) : string :=
  str_repeat s (Z.to_nat n).

(** [key = key + "/" * (KEY_LENGTH - len(key))] *)
Definition pad_key (cfg : config) (key : string) : string :=
  key +:+ str_mul "/" (Z.of_nat (KEY_LENGTH cfg) - Z.of_nat (String.length key)).

(** The two [continue] tests on a split line, then [key = line[1]]. *)
Definition record_key (line : list string) : option string :=
  if length line <? 2 then None
  else
    match line !! 0, line !! 1 with
    | Some tag, Some key =>
        if negb (String.eqb tag "L") && negb (String.eqb tag "P") then None
        else Some key
    | _, _ => None
    end.

(** ** [generate_op] *)

Section Synthesis.
Context {R : RandomGen}.
Implicit Type st : state R.

Definition generate_op (WORKLOAD : workload) (current_key : string) st
  : outcome (string * string) * state R :=
  match WORKLOAD with
  | D =>
      let '(random_num, g) := rng_random R (rng st) in
      let st := set_rng st g in
      if lt_0_9 random_num then
        if length (key_buffer st) =? 0 then
          (Return ("r", current_key), st)
        else
          match randrange R (length (key_buffer st)) (rng st) with
          | (Raise e, g) => (Raise e, set_rng st g)
          | (Return random_int, g) =>
              let st := set_rng st g in
              match key_buffer st !! random_int with
              | Some k => (Return ("r", k), st)
              | None => (Raise IndexError, st)
              end
          end
      else
        let st :=
          if length (key_buffer st) =? 10
          then set_key_buffer st (drop 1 (key_buffer st))
          else st in
        let st := set_key_buffer st (key_buffer st ++ [current_key]) in
        (Return ("i", current_key), st)
  | E =>
      let '(random_num, g) := rng_random R (rng st) in
      let st := set_rng st g in
      if lt_0_9 random_num then
        match randrange R (length (inserted_keys st)) (rng st) with
        | (Raise e, g) => (Raise e, set_rng st g)
        | (Return random_int, g) =>
            let st := set_rng st g in
            match inserted_keys st !! random_int with
            | Some k => (Return ("s", k), st)
            | None => (Raise IndexError, st)
            end
        end
      else
        let st := set_inserted_keys st (inserted_keys st ++ [current_key]) in
        (Return ("i", current_key), st)
  end.

(** ** The body of the [while True] loop for one line that was read *)

(** Lines 89 to 91: synthesize one operation, write it to the worker file
    under the cursor, advance the cursor. *)
Definition emit_op (WORKLOAD : workload) (key : string) st
  : control * state R :=
  match generate_op WORKLOAD key st with
  | (Raise e, st) => (Raised e, st)
  | (Return (op, query_key), st) =>
      match worker_files st !! current_thread st with
      | None => (Raised IndexError, st)
      | Some _ =>
          let st := write_worker st (current_thread st) op query_key
                      (op +:+ " " +:+ query_key +:+ nl) in
          (Continue, set_current_thread st (current_thread st + 1))
      end
  end.

(** The part after the key is padded: lines 73 to 91. *)
Definition route_key (cfg : config) (WORKLOAD : workload) (key : string) st
  : control * state R :=
  match current_state st with
  | load =>
      let st := set_counter st (counter st + 1) in
      if counter st =? INIT_KEYS cfg + 1 then
        let st := set_counter st 0 in
        (Continue, enter_thread_phase st)
      else
        let st := set_inserted_keys st (inserted_keys st ++ [key]) in
        if current_file_closed st then (Raised ValueError, st)
        else (Continue, write_current_file st (key +:+ nl))
  | thread =>
      if current_thread st =? NUM_THREADS cfg then
        let st := set_current_thread st 0 in
        let st := set_counter st (counter st + 1) in
        if (Z.of_nat (PER_THREAD_KEYS cfg) - 1 <=? Z.of_nat (counter st))%Z
        then (Break, st)
        else emit_op WORKLOAD key st
      else emit_op WORKLOAD key st
  end.

Definition process_line (cfg : config) (WORKLOAD : workload)
    (line : list string) st : control * state R :=
  match record_key line with
  | None => (Continue, st)
  | Some key => route_key cfg WORKLOAD (pad_key cfg key) st
  end.

(** ** The loops *)

(** [while True] over the lines of one file: [readline] returns the empty
    string at the end of the file, which leaves the loop as [break] does. *)
Fixpoint read_file (cfg : config) (WORKLOAD : workload)
    (f : list (list string)) st : option pyexn * state R :=
  match f with
  | [] => (None, st)
  | line :: rest =>
      match process_line cfg WORKLOAD line st with
      | (Continue, st') => read_file cfg WORKLOAD rest st'
      | (Break, st') => (None, st')
      | (Raised e, st') => (Some e, st')
      end
  end.

(** [for filename in file_list] *)
Fixpoint read_files (cfg : config) (WORKLOAD : workload)
    (file_list : list (list (list string))) st : option pyexn * state R :=
  match file_list with
  | [] => (None, st)
  | f :: rest =>
      match read_file cfg WORKLOAD f st with
      | (None, st') => read_files cfg WORKLOAD rest st'
      | (Some e, st') => (Some e, st')
      end
  end.

(** Lines 24 to 32: the variables at the start of a workload. *)
Definition init_state (cfg : config) (g : rng_state R) : state R :=
  mkState load 0 0 [] false (replicate (NUM_THREADS cfg) []) [] [] g [].

(** One pass of the [for WORKLOAD] loop. *)
Definition run_workload (cfg : config) (WORKLOAD : workload)
    (file_list : list (list (list string))) (g : rng_state R)
  : option pyexn * state R :=
  read_files cfg WORKLOAD file_list (init_state cfg g).
End Synthesis.

(** The files one workload leaves behind. *)
Record output : Type := {
  load_file : file;
  worker_outputs : list file
}.

Definition output_of {R : RandomGen} (st : state R) : output :=
  {| load_file := current_file st; worker_outputs := worker_files st |}.

(** [for WORKLOAD in ["D", "E"]]: the generator is the one of the module,
    its state goes on from D to E; an exception in D ends the script. *)
Definition main {R : RandomGen} (cfg : config)
    (file_list : list (list (list string))) (g : rng_state R)
  : list (workload * output) * option pyexn :=
  match run_workload cfg D file_list g with
  | (Some e, stD) => ([(D, output_of stD)], Some e)
  | (None, stD) =>
      let '(r, stE) := run_workload cfg E file_list (rng stD) in
      ([(D, output_of stD); (E, output_of stE)], r)
  end.

(** ** A generator that replays a tape of draws

    Used to run the model on concrete inputs: [random()] pops the next
    number of the tape, [randbelow n] pops one and reduces it below [n];
    an exhausted tape yields 0. *)
Definition tape_random (g : list N) : N * list N :=
  match g with
  | [] => (0%N, [])
  | x :: g' => (x, g')
  end.

Definition tape_randbelow (n : nat) (g : list N) : nat * list N :=
  match g with
  | [] => (0, [])
  | x :: g' => (N.to_nat x mod n, g')
  end.

Definition TapeGen : RandomGen.
Proof.
  refine {| rng_state := list N;
            rng_random := tape_random;
            rng_randbelow := tape_randbelow;
            rng_randbelow_lt := _ |}.
  intros n g Hn. destruct g as [|x g']; simpl; [lia|].
  apply Nat.mod_upper_bound. lia.
Defined.

(** * Predicates of the specification *)

(** The states a workload pass goes through: the initial one, and the one
    after the loop body has handled one more line.  (The body is also
    applied to the state a [break] or an exception leaves, which only adds
    states.) *)
Inductive reachable {R : RandomGen} (cfg : config) (WORKLOAD : workload)
  : state R -> Prop :=
| reachable_init (g : rng_state R) :
    reachable cfg WORKLOAD (init_state cfg g)
| reachable_step (st : state R) (line : list string) :
    reachable cfg WORKLOAD st ->
    reachable cfg WORKLOAD (process_line cfg WORKLOAD line st).2.

(** The line written for an operation: [f"{op} {query_key}\n"]. *)
Definition op_line (o : string * string) : string :=
  o.1 +:+ " " +:+ o.2 +:+ nl.

(** Completed rounds over the worker files. *)
Definition rounds {R : RandomGen} (st : state R) : nat :=
  match current_state st with
  | load => 0
  | thread => counter st
  end.

(** What holds of the thread cursor, the worker files and the history of
    writes in every state of a run. *)
Record wf_state {R : RandomGen} (cfg : config) (st : state R) : Prop := {
  wf_workers : length (worker_files st) = NUM_THREADS cfg;
  wf_cursor : current_thread st <= NUM_THREADS cfg;
  wf_load :
    current_state st = load ->
    current_thread st = 0 /\ emitted st = []
    /\ current_file_closed st = false;
  wf_count :
    length (emitted st) = rounds st * NUM_THREADS cfg + current_thread st;
  wf_file_length :
    forall i f, worker_files st !! i = Some f ->
      length f = rounds st + (if i <? current_thread st then 1 else 0);
  wf_written :
    forall k t o, emitted st !! k = Some (t, o) ->
      t = k `mod` NUM_THREADS cfg
      /\ exists f, worker_files st !! t = Some f
                   /\ f !! (k `div` NUM_THREADS cfg) = Some (op_line o)
}.

(** The padded keys of the accepted records of a sequence of lines. *)
Definition accepted_keys (cfg : config) (lines : list (list string))
  : list string :=
  omap (fun line => pad_key cfg <$> record_key line) lines.

(** Every key of [inserted_keys] was written to the load file or is the key
    of an "i" operation written to a worker file; every "s" operation
    written takes its key from the load file or from an earlier "i". *)
Record scans_known {R : RandomGen} (cfg : config) (st : state R) : Prop := {
  known_inserted :
    0 < NUM_THREADS cfg ->
    forall key, key ∈ inserted_keys st ->
      (key +:+ nl) ∈ current_file st
      \/ exists j t, emitted st !! j = Some (t, ("i", key));
  known_scans :
    forall k t key, emitted st !! k = Some (t, ("s", key)) ->
      (key +:+ nl) ∈ current_file st
      \/ exists j t', j < k /\ emitted st !! j = Some (t', ("i", key))
}.

(** Two generators, started in related states, deliver the same draws. *)
Record same_draws (R1 R2 : RandomGen)
    (rel : rng_state R1 -> rng_state R2 -> Prop) : Prop := {
  same_random :
    forall g1 g2, rel g1 g2 ->
      (rng_random R1 g1).1 = (rng_random R2 g2).1
      /\ rel (rng_random R1 g1).2 (rng_random R2 g2).2;
  same_randbelow :
    forall n g1 g2, rel g1 g2 ->
      (rng_randbelow R1 n g1).1 = (rng_randbelow R2 n g2).1
      /\ rel (rng_randbelow R1 n g1).2 (rng_randbelow R2 n g2).2
}.

(** The variables of two runs agree, up to the states of the generators. *)
Record state_sim {R1 R2 : RandomGen}
    (rel : rng_state R1 -> rng_state R2 -> Prop)
    (st1 : state R1) (st2 : state R2) : Prop := {
  sim_current_state : current_state st1 = current_state st2;
  sim_counter : counter st1 = counter st2;
  sim_current_thread : current_thread st1 = current_thread st2;
  sim_current_file : current_file st1 = current_file st2;
  sim_current_file_closed : current_file_closed st1 = current_file_closed st2;
  sim_worker_files : worker_files st1 = worker_files st2;
  sim_key_buffer : key_buffer st1 = key_buffer st2;
  sim_inserted_keys : inserted_keys st1 = inserted_keys st2;
  sim_emitted : emitted st1 = emitted st2;
  sim_rng : rel (rng st1) (rng st2)
}.

(** The operations in all worker files. *)
Definition total_ops {R : RandomGen} (st : state R) : nat :=
  sum_list (length <$> worker_files st).

(** * Concrete inputs *)

(** The scenario of the specification: two threads, two load keys, keys of
    width 5; [PER_THREAD_KEYS] is left open. *)
Definition scenario_cfg (per_thread_keys : nat) : config :=
  {| NUM_THREADS := 2; INIT_KEYS := 2;
     PER_THREAD_KEYS := per_thread_keys; KEY_LENGTH := 5 |}.

Definition scenario_lines : list (list string) :=
  [ ["L"; "keyA"]; ["X"; "ignored"]; ["P"; "keyB"]; ["L"; "keyC"] ].

(** A longer input for the same configuration. *)
Definition sample_lines : list (list string) :=
  scenario_lines
  ++ [ ["L"; "keyD"]; []; ["L"]; ["P"; "keyE"; "x"]; ["P"; "keyF"];
       ["L"; "keyG"]; ["L"; "keyH"]; ["P"; "keyI"] ].

(** Draws at or above 0.9 (an insert) and below (a read or a scan). *)
Definition draw_high : N := 9000000000000000.
Definition draw_low : N := 5.

(** Three input files that each hold more accepted records than a round
    of the two threads takes. *)
Definition overrun_cfg : config :=
  {| NUM_THREADS := 2; INIT_KEYS := 1; PER_THREAD_KEYS := 2; KEY_LENGTH := 3 |}.

Definition overrun_files : list (list (list string)) :=
  [ [ ["L"; "k00"]; ["L"; "k01"]; ["L"; "k02"]; ["L"; "k03"]; ["L"; "k04"];
      ["L"; "k05"] ];
    [ ["L"; "k06"]; ["L"; "k07"]; ["L"; "k08"] ];
    [ ["L"; "k09"]; ["L"; "k10"]; ["L"; "k11"] ] ].

(** Twelve inserts in a row: the buffer keeps the last ten keys. *)
Definition eviction_cfg : config :=
  {| NUM_THREADS := 1; INIT_KEYS := 0; PER_THREAD_KEYS := 100; KEY_LENGTH := 3 |}.

Definition eviction_lines : list (list string) :=
  (fun k => ["P"; k])
  <$> ["k00"; "k01"; "k02"; "k03"; "k04"; "k05"; "k06"; "k07"; "k08"; "k09";
       "k10"; "k11"; "k12"].

Definition eviction_state : state TapeGen :=
  (run_workload (R:=TapeGen) eviction_cfg D [eviction_lines]
     (replicate 12 draw_high)).2.

(** A tape and the same tape with a 0 appended deliver the same draws: an
    exhausted tape yields 0. *)
Definition tape_padded (g1 g2 : list N) : Prop :=
  g2 = g1 ++ [0%N] \/ (g1 = [] /\ g2 = []).

(** * Further predicates *)

(** A file without the lines the record filter rejects. *)
Definition accepted_lines (f : list (list string)) : list (list string) :=
  filter (fun line => is_Some (record_key line)) f.

(** The keys of the insert operations of a history of writes, in order. *)
Definition insert_keys (log : list (nat * (string * string))) : list string :=
  omap (fun e => if String.eqb e.2.1 "i" then Some e.2.2 else None) log.

(** The last [n] elements of a list. *)
Definition last_n {A : Type} (n : nat) (l : list A) : list A :=
  drop (length l - n) l.

(** The operation codes a workload writes. *)
Definition op_codes (WORKLOAD : workload) : list string :=
  match WORKLOAD with
  | D => ["r"; "i"]
  | E => ["s"; "i"]
  end.


(** The keys a pass holds and has written are keys of [S], and the
    operations written have the codes of the workload. *)
Definition keys_within {R : RandomGen} (S : list string)
    (WORKLOAD : workload) (st : state R) : Prop :=
  Forall (fun k => k ∈ S) (key_buffer st)
  /\ Forall (fun k => k ∈ S) (inserted_keys st)
  /\ Forall (fun e : nat * (string * string) =>
               e.2.1 ∈ op_codes WORKLOAD /\ e.2.2 ∈ S) (emitted st).


(** Workload D: the buffer holds the keys of the last ten inserts written,
    oldest first, and every read written after an insert takes its key from
    the ten inserts before it. *)
Record buffer_tracks_inserts {R : RandomGen} (st : state R) : Prop := {
  tracks_buffer : key_buffer st = last_n 10 (insert_keys (emitted st));
  tracks_reads :
    forall p t k, emitted st !! p = Some (t, ("r", k)) ->
      insert_keys (take p (emitted st)) = []
      \/ k ∈ last_n 10 (insert_keys (take p (emitted st)))
}.

(** The keys a workload adds to [inserted_keys] after the load phase: the
    keys of its insert operations for E, none for D. *)
Definition synthesized_keys (WORKLOAD : workload)
    (log : list (nat * (string * string))) : list string :=
  match WORKLOAD with
  | D => []
  | E => insert_keys log
  end.

(** What a later state has kept of an earlier one: every file, the list of
    inserted keys and the history of writes only grew at the end. *)
Record extends {R : RandomGen} (st st' : state R) : Prop := {
  ext_load_file : current_file st `prefix_of` current_file st';
  ext_worker_files : Forall2 prefix (worker_files st) (worker_files st');
  ext_inserted_keys : inserted_keys st `prefix_of` inserted_keys st';
  ext_emitted : emitted st `prefix_of` emitted st'
}.

(** The accepted records the load phase still takes before the first
    operation is synthesized: [INIT_KEYS] records for the load file and the
    record of the transition. *)
Definition load_pending {R : RandomGen} (cfg : config) (st : state R) : nat :=
  match current_state st with
  | load => INIT_KEYS cfg + 1 - counter st
  | thread => 0
  end.

(** The states of a pass that has no worker file ([NUM_THREADS = 0]): the
    cursor stays at 0, and the round counter of the thread phase stays at 0
    unless the bound of the rounds is so low that every record ends the
    loop. *)
Definition no_worker_state {R : RandomGen} (cfg : config) (st : state R)
  : Prop :=
  worker_files st = []
  /\ current_thread st = 0
  /\ match current_state st with
     | load => counter st <= INIT_KEYS cfg /\ current_file_closed st = false
     | thread => counter st = 0 \/ PER_THREAD_KEYS cfg <= 2
     end.

(** What one step of workload D adds to the history of writes, from the
    state [st] on the line [line]: nothing, or one operation for the key of
    the line; the operation is an insert of that key, or a read, and a read
    takes that key when no insert was written before it, and otherwise the
    key of one of the last ten inserts written. *)
Definition recent_key_step {R : RandomGen} (cfg : config)
    (line : list string) (st st' : state R) : Prop :=
  emitted st' = emitted st
  \/ exists key t,
       record_key line = Some key
       /\ (emitted st' = emitted st ++ [(t, ("i", pad_key cfg key))]
           \/ (insert_keys (emitted st) = []
               /\ emitted st' = emitted st ++ [(t, ("r", pad_key cfg key))])
           \/ (exists k,
                 k ∈ last_n 10 (insert_keys (emitted st))
                 /\ emitted st' = emitted st ++ [(t, ("r", k))])).

(** A pass of workload D over [sample_lines] with a read before the first
    insert and reads after it. *)
Definition recent_state : state TapeGen :=
  (run_workload (R:=TapeGen) (scenario_cfg 3) D [sample_lines]
     [draw_low; draw_high; draw_low; 0%N; draw_low; 0%N]).2.

(** * Proof automation *)

Ltac sim_start st1 st2 H :=
  destruct st1, st2, H; simpl in *; subst.
Ltac sim_done :=
  split; [done | first [done | constructor; simpl; done]].

(** * Properties *)

(** ** Key padding *)

Section Padding.

Lemma append_cons (c : ascii) (s1 s2 : string) :
  String c s1 +:+ s2 = String c (s1 +:+ s2).
Proof. reflexivity. Qed.

Lemma append_nil (s : string) : "" +:+ s = s.
Proof. reflexivity. Qed.

Lemma length_append (s1 s2 : string) :
  String.length (s1 +:+ s2) = String.length s1 + String.length s2.
Proof.
  induction s1 as [|c s1 IH]; [reflexivity|].
  rewrite append_cons. simpl. now rewrite IH.
Qed.

Lemma append_empty_r (s : string) : s +:+ "" = s.
Proof.
  induction s as [|c s IH]; [reflexivity|].
  rewrite append_cons. now rewrite IH.
Qed.

Lemma substring_append_l (s1 s2 : string) :
  String.substring 0 (String.length s1) (s1 +:+ s2) = s1.
Proof.
  induction s1 as [|c s1 IH].
  - rewrite append_nil. now destruct s2.
  - rewrite append_cons. simpl. now rewrite IH.
Qed.

Lemma get_append_r (s1 s2 : string) (i : nat) :
  String.length s1 <= i ->
  String.get i (s1 +:+ s2) = String.get (i - String.length s1) s2.
Proof.
  revert i. induction s1 as [|c s1 IH]; intros i Hi.
  - rewrite append_nil. simpl. now rewrite Nat.sub_0_r.
  - rewrite append_cons. simpl in *.
    destruct i as [|i]; [lia|]. simpl. apply IH. lia.
Qed.

Lemma length_str_repeat (s : string) (n : nat) :
  String.length (str_repeat s n) = n * String.length s.
Proof.
  induction n as [|n IH]; [reflexivity|].
  simpl. now rewrite length_append, IH.
Qed.

Lemma get_str_repeat_slash (n i : nat) :
  i < n -> String.get i (str_repeat "/" n) = Some "/"%char.
Proof.
  revert i. induction n as [|n IH]; intros i Hi; [lia|].
  destruct i as [|i]; simpl; [reflexivity|]. apply IH. lia.
Qed.

Lemma str_mul_nonpos (s : string) (n : Z) : (n <= 0)%Z -> str_mul s n = "".
Proof.
  intros Hn. unfold str_mul.
  replace (Z.to_nat n) with 0 by lia. reflexivity.
Qed.

Lemma pad_key_short (cfg : config) (key : string) :
  String.length key <= KEY_LENGTH cfg ->
  pad_key cfg key
  = key +:+ str_repeat "/" (KEY_LENGTH cfg - String.length key).
Proof.
  intros Hle. unfold pad_key, str_mul. do 2 f_equal. lia.
Qed.

Lemma pad_key_long (cfg : config) (key : string) :
  KEY_LENGTH cfg < String.length key -> pad_key cfg key = key.
Proof.
  intros Hlt. unfold pad_key.
  rewrite str_mul_nonpos by lia. apply append_empty_r.
Qed.

Lemma length_pad_key (cfg : config) (key : string) :
  String.length (pad_key cfg key)
  = Nat.max (KEY_LENGTH cfg) (String.length key).
Proof.
  destruct (Nat.le_gt_cases (String.length key) (KEY_LENGTH cfg)) as [H|H].
  - rewrite pad_key_short, length_append, length_str_repeat by done.
    simpl. lia.
  - rewrite pad_key_long by done. lia.
Qed.

End Padding.

(** C8. For an accepted record whose raw key is at most [KEY_LENGTH] long,
    the padded key has exactly [KEY_LENGTH] characters, starts with the raw
    key, and every character after the raw key is the filler '/'. *)
Theorem pad_key_width_prefix_filler (cfg : config) (line : list string)
    (key : string) :
  record_key line = Some key ->
  String.length key <= KEY_LENGTH cfg ->
  String.length (pad_key cfg key) = KEY_LENGTH cfg
  /\ String.substring 0 (String.length key) (pad_key cfg key) = key
  /\ (forall i, String.length key <= i < KEY_LENGTH cfg ->
        String.get i (pad_key cfg key) = Some "/"%char).
Proof.
  intros _ Hle. rewrite pad_key_short by done. repeat split.
  - rewrite length_append, length_str_repeat. simpl. lia.
  - apply substring_append_l.
  - intros i [Hlo Hhi]. rewrite get_append_r by done.
    apply get_str_repeat_slash. lia.
Qed.

Lemma pad_key_width_prefix_filler_witness :
  String.length (pad_key (Build_config 2 2 3 5) "keyA") = 5
  /\ String.substring 0 4 (pad_key (Build_config 2 2 3 5) "keyA") = "keyA"
  /\ (forall i, 4 <= i < 5 ->
        String.get i (pad_key (Build_config 2 2 3 5) "keyA") = Some "/"%char).
Proof.
  apply (pad_key_width_prefix_filler (Build_config 2 2 3 5) ["L"; "keyA"] "keyA").
  - reflexivity.
  - simpl. lia.
Defined.

(** ** States of a run *)

Section Reachable.
Context {R : RandomGen} (cfg : config) (WORKLOAD : workload).
Implicit Type st : state R.

Lemma read_file_reachable (f : list (list string)) st :
  reachable cfg WORKLOAD st ->
  reachable cfg WORKLOAD (read_file cfg WORKLOAD f st).2.
Proof.
  revert st. induction f as [|line rest IH]; intros st Hst; simpl; [done|].
  pose proof (reachable_step cfg WORKLOAD st line Hst) as Hstep.
  destruct (process_line cfg WORKLOAD line st) as [[| |e] st']; simpl in *;
    auto.
Qed.

Lemma read_files_reachable (file_list : list (list (list string))) st :
  reachable cfg WORKLOAD st ->
  reachable cfg WORKLOAD (read_files cfg WORKLOAD file_list st).2.
Proof.
  revert st. induction file_list as [|f rest IH]; intros st Hst; simpl;
    [done|].
  pose proof (read_file_reachable f st Hst) as Hf.
  destruct (read_file cfg WORKLOAD f st) as [[e|] st']; simpl in *; auto.
Qed.

Lemma run_workload_reachable (file_list : list (list (list string)))
    (g : rng_state R) :
  reachable cfg WORKLOAD (run_workload cfg WORKLOAD file_list g).2.
Proof. apply read_files_reachable, reachable_init. Qed.

(** [generate_op] touches the generator and the two key lists only. *)
Lemma generate_op_frame (key : string) st :
  let st' := (generate_op WORKLOAD key st).2 in
  current_state st' = current_state st
  /\ counter st' = counter st
  /\ current_thread st' = current_thread st
  /\ current_file st' = current_file st
  /\ current_file_closed st' = current_file_closed st
  /\ worker_files st' = worker_files st
  /\ emitted st' = emitted st.
Proof.
  unfold generate_op, randrange.
  repeat case_match; simplify_eq/=; repeat split; reflexivity.
Qed.

End Reachable.

(** ** Worker files and the history of writes *)

Lemma div_mod_round (N q r : nat) :
  r < N -> (q * N + r) `mod` N = r /\ (q * N + r) `div` N = q.
Proof.
  intros Hr. split; symmetry.
  - apply (Nat.mod_unique _ _ q); lia.
  - apply (Nat.div_unique _ _ _ r); lia.
Qed.

Section WellFormed.
Context {R : RandomGen} (cfg : config) (WORKLOAD : workload).
Implicit Type st : state R.

Lemma wf_state_init (g : rng_state R) : wf_state cfg (init_state cfg g).
Proof.
  constructor; simpl; try done.
  - apply length_replicate.
  - lia.
  - intros i f Hf. apply lookup_replicate in Hf as [-> _].
    by destruct i.
Qed.

(** A state that differs in the generator and the key lists only. *)
Lemma wf_state_frame st st' :
  current_state st' = current_state st ->
  counter st' = counter st ->
  current_thread st' = current_thread st ->
  current_file_closed st' = current_file_closed st ->
  worker_files st' = worker_files st ->
  emitted st' = emitted st ->
  wf_state cfg st -> wf_state cfg st'.
Proof.
  intros Hph Hc Ht Hcl Hw He [H1 H2 H3 H4 H5 H6].
  constructor; unfold rounds in *; rewrite ?Hph, ?Hc, ?Ht, ?Hcl, ?Hw, ?He;
    done.
Qed.

(** [current_thread = 0; counter += 1] at the end of a round. *)
Lemma wf_state_next_round st :
  current_state st = thread ->
  current_thread st = NUM_THREADS cfg ->
  wf_state cfg st ->
  wf_state cfg (set_counter (set_current_thread st 0) (counter st + 1)).
Proof.
  intros Hph Hct [H1 H2 H3 H4 H5 H6].
  constructor; unfold rounds in *; simpl; rewrite ?Hph in *; try done.
  - lia.
  - lia.
  - intros i f Hf. rewrite (H5 i f Hf).
    apply lookup_lt_Some in Hf.
    destruct (Nat.ltb_spec i (current_thread st)); lia.
Qed.

(** The write to [worker_files[current_thread]] and the step of the
    cursor. *)
Lemma wf_state_write st (op query_key : string) (f0 : file) :
  current_state st = thread ->
  worker_files st !! current_thread st = Some f0 ->
  wf_state cfg st ->
  wf_state cfg
    (set_current_thread
       (write_worker st (current_thread st) op query_key
          (op +:+ " " +:+ query_key +:+ nl))
       (current_thread st + 1)).
Proof.
  intros Hph Hf0 [H1 H2 H3 H4 H5 H6].
  pose proof (lookup_lt_Some _ _ _ Hf0) as Hlt. rewrite H1 in Hlt.
  pose proof (H5 _ _ Hf0) as Hlen0. rewrite Nat.ltb_irrefl in Hlen0.
  unfold rounds in *. rewrite Hph in *.
  constructor; unfold rounds; simpl; rewrite ?Hph.
  - by rewrite length_alter.
  - lia.
  - done.
  - rewrite length_app. simpl. lia.
  - intros i f Hf. rewrite list_lookup_alter in Hf.
    destruct (decide (current_thread st = i)) as [<-|Hne].
    + rewrite Hf0 in Hf. simpl in Hf. simplify_eq.
      rewrite length_app. simpl.
      destruct (Nat.ltb_spec (current_thread st) (current_thread st + 1));
        lia.
    + rewrite (H5 i f) by (by destruct (worker_files st !! i)).
      destruct (Nat.ltb_spec i (current_thread st));
        destruct (Nat.ltb_spec i (current_thread st + 1)); lia.
  - intros k t o Hk.
    destruct (decide (k < length (emitted st))) as [Hk'|Hk'].
    + rewrite lookup_app_l in Hk by done.
      destruct (H6 k t o Hk) as (Ht & f & Hf & Hfk). split; [done|].
      rewrite list_lookup_alter.
      destruct (decide (current_thread st = t)) as [<-|Hne].
      * rewrite Hf. simpl. eexists. split; [done|].
        apply lookup_app_l_Some. done.
      * exists f. split; [|done]. by destruct (worker_files st !! t).
    + apply lookup_lt_Some in Hk as Hk2. rewrite length_app in Hk2.
      simpl in Hk2. assert (k = length (emitted st)) as -> by lia.
      rewrite list_lookup_middle in Hk by done. simplify_eq.
      rewrite H4.
      destruct (div_mod_round (NUM_THREADS cfg) (counter st)
                  (current_thread st) Hlt) as [-> ->].
      split; [done|].
      rewrite list_lookup_alter, decide_True by done.
      rewrite Hf0. simpl. eexists. split; [done|].
      rewrite Nat.add_0_r in Hlen0. by apply list_lookup_middle.
Qed.

Lemma emit_op_wf (key : string) st :
  current_state st = thread ->
  wf_state cfg st -> wf_state cfg (emit_op WORKLOAD key st).2.
Proof.
  intros Hph Hwf. unfold emit_op.
  pose proof (generate_op_frame WORKLOAD key st) as Hfr.
  destruct (generate_op WORKLOAD key st) as [[[op qk]|e] st2]; simpl in Hfr;
    destruct Hfr as (F1 & F2 & F3 & F4 & F5 & F6 & F7).
  - assert (wf_state cfg st2) as Hwf2 by (by eapply wf_state_frame).
    destruct (worker_files st2 !! current_thread st2) as [f0|] eqn:Hf0;
      [|done].
    simpl. apply (wf_state_write st2 op qk f0); [congruence|done|done].
  - simpl. by eapply wf_state_frame.
Qed.

Lemma route_key_wf (key : string) st :
  wf_state cfg st -> wf_state cfg (route_key cfg WORKLOAD key st).2.
Proof.
  intros Hwf. unfold route_key.
  destruct (current_state st) eqn:Hph.
  - destruct Hwf as [H1 H2 H3 H4 H5 H6].
    destruct (H3 Hph) as (Hct & Hem & Hcl).
    unfold rounds in *. rewrite Hph in *.
    simpl. case_match; simpl.
    + constructor; unfold rounds; simpl; try done;
        intros i f Hf; rewrite (H5 i f Hf); reflexivity.
    + rewrite Hcl. simpl.
      constructor; unfold rounds; simpl; rewrite ?Hph; done.
  - destruct (Nat.eqb_spec (current_thread st) (NUM_THREADS cfg)) as [Heq|Hne].
    + pose proof (wf_state_next_round st Hph Heq Hwf) as Hwf1.
      simpl. case_match; [done|]. by apply emit_op_wf.
    + by apply emit_op_wf.
Qed.

Lemma process_line_wf (line : list string) st :
  wf_state cfg st -> wf_state cfg (process_line cfg WORKLOAD line st).2.
Proof.
  intros Hwf. unfold process_line.
  destruct (record_key line); [by apply route_key_wf | done].
Qed.

Lemma reachable_wf st : reachable cfg WORKLOAD st -> wf_state cfg st.
Proof.
  induction 1 as [g|st line _ IH];
    [apply wf_state_init | by apply process_line_wf].
Qed.

End WellFormed.

(** C5. Round-robin thread assignment: in every run, the [k]-th operation
    written after the phase transition (counting from 0) goes to worker
    file [k mod NUM_THREADS]; it is line [k / NUM_THREADS] of that file. *)
Theorem round_robin_assignment {R : RandomGen} (cfg : config)
    (WORKLOAD : workload) (file_list : list (list (list string)))
    (g : rng_state R) (k t : nat) (o : string * string) :
  emitted (run_workload cfg WORKLOAD file_list g).2 !! k = Some (t, o) ->
  t = k `mod` NUM_THREADS cfg
  /\ exists f,
       worker_files (run_workload cfg WORKLOAD file_list g).2 !! t = Some f
       /\ f !! (k `div` NUM_THREADS cfg) = Some (op_line o).
Proof.
  apply wf_written, (reachable_wf cfg WORKLOAD), run_workload_reachable.
Qed.

(** ** The load phase *)

Section LoadPhase.
Context {R : RandomGen} (cfg : config) (WORKLOAD : workload).
Implicit Type st : state R.

Lemma accepted_keys_app (l1 l2 : list (list string)) :
  accepted_keys cfg (l1 ++ l2) = accepted_keys cfg l1 ++ accepted_keys cfg l2.
Proof. apply omap_app. Qed.

(** After the transition nothing touches the load file or the phase. *)
Lemma emit_op_load_file (key : string) st :
  current_file (emit_op WORKLOAD key st).2 = current_file st
  /\ current_state (emit_op WORKLOAD key st).2 = current_state st
  /\ current_file_closed (emit_op WORKLOAD key st).2
     = current_file_closed st.
Proof.
  unfold emit_op.
  pose proof (generate_op_frame WORKLOAD key st) as Hfr.
  destruct (generate_op WORKLOAD key st) as [[[op qk]|e] st2]; simpl in Hfr;
    destruct Hfr as (F1 & F2 & F3 & F4 & F5 & F6 & F7).
  - destruct (worker_files st2 !! current_thread st2); simpl; done.
  - done.
Qed.

Lemma process_line_thread (line : list string) st :
  current_state st = thread ->
  current_file (process_line cfg WORKLOAD line st).2 = current_file st
  /\ current_state (process_line cfg WORKLOAD line st).2 = thread
  /\ current_file_closed (process_line cfg WORKLOAD line st).2
     = current_file_closed st.
Proof.
  intros Hph. unfold process_line.
  destruct (record_key line) as [key|]; [|done].
  unfold route_key. rewrite Hph.
  repeat case_match; simpl;
    rewrite <- ?Hph; try done;
    match goal with
    | |- context [emit_op _ ?k ?s] =>
        destruct (emit_op_load_file k s) as (-> & -> & ->)
    end; done.
Qed.

Lemma read_file_thread (f : list (list string)) st :
  current_state st = thread ->
  current_file (read_file cfg WORKLOAD f st).2 = current_file st
  /\ current_state (read_file cfg WORKLOAD f st).2 = thread.
Proof.
  revert st. induction f as [|line rest IH]; intros st Hph; simpl; [done|].
  destruct (process_line_thread line st Hph) as (Hf & Hp & _).
  destruct (process_line cfg WORKLOAD line st) as [[| |e] st']; simpl in *;
    [|done..].
  destruct (IH st' Hp) as [-> ->]. done.
Qed.

Lemma read_files_thread (file_list : list (list (list string))) st :
  current_state st = thread ->
  current_file (read_files cfg WORKLOAD file_list st).2 = current_file st
  /\ current_state (read_files cfg WORKLOAD file_list st).2 = thread.
Proof.
  revert st. induction file_list as [|f rest IH]; intros st Hph; simpl;
    [done|].
  destruct (read_file_thread f st Hph) as [Hf Hp].
  destruct (read_file cfg WORKLOAD f st) as [[e|] st']; simpl in *; [done|].
  destruct (IH st' Hp) as [-> ->]. done.
Qed.

End LoadPhase.

Section LoadFile.
Context {R : RandomGen} (cfg : config) (WORKLOAD : workload).
Implicit Type st : state R.

(** What [read_file] does to a state of the load phase: it writes the
    accepted keys up to [INIT_KEYS] in all, and stays in the load phase
    unless there is one accepted record more. *)
Lemma read_file_load (f : list (list string)) st :
  current_state st = load ->
  current_file_closed st = false ->
  counter st <= INIT_KEYS cfg ->
  let res := read_file cfg WORKLOAD f st in
  let ks := accepted_keys cfg f in
  current_file res.2
  = current_file st
    ++ ((fun k => k +:+ nl) <$> take (INIT_KEYS cfg - counter st) ks)
  /\ (length ks <= INIT_KEYS cfg - counter st ->
      res.1 = None /\ current_state res.2 = load
      /\ current_file_closed res.2 = false
      /\ counter res.2 = counter st + length ks)
  /\ (INIT_KEYS cfg - counter st < length ks ->
      current_state res.2 = thread).
Proof.
  revert st. induction f as [|line rest IH]; intros st Hph Hcl Hc; simpl.
  { rewrite take_nil. simpl. rewrite app_nil_r.
    repeat split; auto with lia. }
  unfold accepted_keys, process_line. simpl.
  destruct (record_key line) as [key|]; simpl; [|by apply IH].
  fold (accepted_keys cfg rest).
  unfold route_key. rewrite Hph. simpl.
  destruct (Nat.eqb_spec (counter st + 1) (INIT_KEYS cfg + 1)) as [Heq|Hne].
  - match goal with
    | |- context [read_file _ _ _ ?s] =>
        destruct (read_file_thread cfg WORKLOAD rest s eq_refl) as [-> ->]
    end.
    replace (INIT_KEYS cfg - counter st) with 0 by lia.
    simpl. rewrite app_nil_r. repeat split; auto with lia.
  - rewrite Hcl.
    match goal with
    | |- context [read_file _ _ _ ?s] =>
        destruct (IH s) as (Hfile & Hstay & Hgo); simpl; [done|done|lia|]
    end.
    simpl in *. rewrite Hfile.
    replace (INIT_KEYS cfg - counter st)
      with (S (INIT_KEYS cfg - (counter st + 1))) by lia.
    simpl. rewrite <- app_assoc. simpl. split; [done|]. split.
    + intros Hlen. destruct Hstay as (? & ? & ? & ->); [lia|].
      repeat split; auto with lia.
    + intros Hlen. apply Hgo. lia.
Qed.

Lemma read_files_load (file_list : list (list (list string))) st :
  current_state st = load ->
  current_file_closed st = false ->
  counter st <= INIT_KEYS cfg ->
  current_file (read_files cfg WORKLOAD file_list st).2
  = current_file st
    ++ ((fun k => k +:+ nl)
          <$> take (INIT_KEYS cfg - counter st)
                (accepted_keys cfg (concat file_list))).
Proof.
  revert st. induction file_list as [|f rest IH]; intros st Hph Hcl Hc; simpl.
  { rewrite take_nil. simpl. by rewrite app_nil_r. }
  rewrite accepted_keys_app.
  destruct (read_file_load f st Hph Hcl Hc) as (Hfile & Hstay & Hgo).
  simpl in *.
  destruct (decide (length (accepted_keys cfg f)
                    <= INIT_KEYS cfg - counter st)) as [Hle|Hgt].
  - destruct (Hstay Hle) as (Hres & Hph' & Hcl' & Hc').
    destruct (read_file cfg WORKLOAD f st) as [r st']. simpl in *. subst r.
    rewrite IH by (done || lia).
    rewrite Hfile, Hc', take_app_ge by done.
    rewrite (take_ge (accepted_keys cfg f)) by done.
    rewrite fmap_app, app_assoc. do 3 f_equal. lia.
  - assert (current_state (read_file cfg WORKLOAD f st).2 = thread) as Hph'
      by (apply Hgo; lia).
    rewrite take_app_le by lia.
    destruct (read_file cfg WORKLOAD f st) as [[e|] st']; simpl in *;
      [done|].
    by destruct (read_files_thread cfg WORKLOAD rest st' Hph') as [-> _].
Qed.

(** The load file is closed from the transition on. *)
Lemma reachable_thread_closed st :
  reachable cfg WORKLOAD st ->
  current_state st = thread -> current_file_closed st = true.
Proof.
  induction 1 as [g|st line Hst IH]; [done|].
  destruct (current_state st) eqn:Hph.
  - unfold process_line. destruct (record_key line); [|simpl; congruence].
    unfold route_key. rewrite Hph. simpl.
    repeat case_match; simpl; congruence.
  - destruct (process_line_thread cfg WORKLOAD line st Hph) as (_ & _ & ->).
    auto.
Qed.

End LoadFile.

(** C4. The load file holds exactly [min INIT_KEYS total] lines, where
    [total] counts the accepted records of the whole input: they are the
    padded keys of the first accepted records, in input order.  From the
    phase transition on the load file is closed and no step of the run
    writes to it. *)
Theorem load_file_contents {R : RandomGen} (cfg : config)
    (WORKLOAD : workload) (file_list : list (list (list string)))
    (g : rng_state R) :
  let st := (run_workload cfg WORKLOAD file_list g).2 in
  let ks := accepted_keys cfg (concat file_list) in
  current_file st = (fun k => k +:+ nl) <$> take (INIT_KEYS cfg) ks
  /\ length (current_file st) = INIT_KEYS cfg `min` length ks
  /\ (forall st' : state R,
        reachable cfg WORKLOAD st' -> current_state st' = thread ->
        current_file_closed st' = true
        /\ forall line,
             current_file (process_line cfg WORKLOAD line st').2
             = current_file st'
             /\ current_state (process_line cfg WORKLOAD line st').2 = thread).
Proof.
  intros st ks.
  assert (current_file st = (fun k => k +:+ nl) <$> take (INIT_KEYS cfg) ks)
    as Hfile.
  { unfold st, run_workload.
    rewrite read_files_load by (done || simpl; lia).
    simpl. by rewrite Nat.sub_0_r. }
  split; [done|]. split.
  - rewrite Hfile, length_fmap, length_take. done.
  - intros st' Hreach Hph. split.
    + by eapply reachable_thread_closed.
    + intros line.
      by destruct (process_line_thread cfg WORKLOAD line st' Hph)
        as (-> & -> & _).
Qed.

(** ** Workload D: the buffer of recent keys *)

Section RecentKeys.
Context {R : RandomGen} (cfg : config) (WORKLOAD : workload).
Implicit Type st : state R.

Lemma generate_op_key_buffer (key : string) st :
  length (key_buffer st) <= 10 ->
  length (key_buffer (generate_op WORKLOAD key st).2) <= 10.
Proof.
  intros Hlen. unfold generate_op, randrange.
  repeat case_match; simplify_eq/=; rewrite ?length_app, ?length_drop;
    simpl; try lia.
  all: match goal with
       | H : (length _ =? 10) = _ |- _ =>
           first [apply Nat.eqb_eq in H | apply Nat.eqb_neq in H]; lia
       end.
Qed.

Lemma emit_op_key_buffer (key : string) st :
  length (key_buffer st) <= 10 ->
  length (key_buffer (emit_op WORKLOAD key st).2) <= 10.
Proof.
  intros Hlen. unfold emit_op.
  pose proof (generate_op_key_buffer key st Hlen) as Hg.
  destruct (generate_op WORKLOAD key st) as [[[op qk]|e] st2]; simpl in *;
    [|done].
  destruct (worker_files st2 !! current_thread st2); done.
Qed.

Lemma process_line_key_buffer (line : list string) st :
  length (key_buffer st) <= 10 ->
  length (key_buffer (process_line cfg WORKLOAD line st).2) <= 10.
Proof.
  intros Hlen. unfold process_line.
  destruct (record_key line) as [key|]; [|done].
  unfold route_key.
  repeat case_match; simpl; try done; by apply emit_op_key_buffer.
Qed.

Lemma reachable_key_buffer st :
  reachable cfg WORKLOAD st -> length (key_buffer st) <= 10.
Proof.
  induction 1 as [g|st line _ IH]; [simpl; lia|].
  by apply process_line_key_buffer.
Qed.

End RecentKeys.

(** C6. In a run of workload D the buffer of recent keys never holds
    more than 10 entries; an insert (a draw that is not below 0.9) pushes
    the key, and when the buffer holds 10 entries the oldest one is dropped
    first. *)
Theorem key_buffer_at_most_10 {R : RandomGen} (cfg : config) (st : state R) :
  reachable cfg D st ->
  length (key_buffer st) <= 10
  /\ forall key,
       lt_0_9 (rng_random R (rng st)).1 = false ->
       (generate_op D key st).1 = Return ("i", key)
       /\ (length (key_buffer st) < 10 ->
           key_buffer (generate_op D key st).2 = key_buffer st ++ [key])
       /\ (forall oldest rest,
             key_buffer st = oldest :: rest -> length (key_buffer st) = 10 ->
             key_buffer (generate_op D key st).2 = rest ++ [key]).
Proof.
  intros Hreach. pose proof (reachable_key_buffer cfg D st Hreach) as Hlen.
  split; [done|]. intros key Hdraw. unfold generate_op.
  destruct (rng_random R (rng st)) as [r g']. simpl in *. rewrite Hdraw.
  split; [done|]. split.
  - intros Hlt. destruct (Nat.eqb_spec (length (key_buffer st)) 10); [lia|done].
  - intros oldest rest Hkb H10. rewrite H10. simpl. by rewrite Hkb.
Qed.

(** ** Workload E: the list of inserted keys *)

Section InsertedKeys.
Context {R : RandomGen} (cfg : config).
Implicit Type st : state R.

Lemma generate_op_E_cases (key : string) st :
  (exists k, (generate_op E key st).1 = Return ("s", k)
             /\ k ∈ inserted_keys st
             /\ inserted_keys (generate_op E key st).2 = inserted_keys st)
  \/ ((generate_op E key st).1 = Return ("i", key)
      /\ inserted_keys (generate_op E key st).2 = inserted_keys st ++ [key])
  \/ (exists e, (generate_op E key st).1 = Raise e
                /\ inserted_keys (generate_op E key st).2 = inserted_keys st).
Proof.
  unfold generate_op, randrange.
  repeat case_match; simplify_eq/=; eauto.
  left. eexists. split; [done|]. split; [|done].
  by eapply list_elem_of_lookup_2.
Qed.

Lemma emit_op_scans_known (key : string) st :
  wf_state cfg st ->
  current_state st = thread ->
  (0 < NUM_THREADS cfg -> current_thread st < NUM_THREADS cfg) ->
  scans_known cfg st -> scans_known cfg (emit_op E key st).2.
Proof.
  intros Hwf Hph Hct [Hins Hscan]. unfold emit_op.
  pose proof (generate_op_frame E key st) as Hfr.
  pose proof (generate_op_E_cases key st) as Hcases.
  destruct (generate_op E key st) as [r st2]. simpl in *.
  destruct Hfr as (F1 & F2 & F3 & F4 & F5 & F6 & F7).
  assert (forall e, r = Raise e -> scans_known cfg st2) as Hraise.
  { intros e ->.
    destruct Hcases as [(k & ? & _)|[[? _]|(e' & _ & Hik)]]; [done..|].
    constructor; rewrite ?Hik, ?F4, ?F7; done. }
  destruct r as [[op qk]|e]; [|by eapply Hraise].
  destruct (worker_files st2 !! current_thread st2) as [f0|] eqn:Hf0; simpl.
  - assert (0 < NUM_THREADS cfg) as Hpos.
    { apply lookup_lt_Some in Hf0. rewrite F6, (wf_workers cfg st Hwf) in Hf0.
      lia. }
    assert (forall key', key' ∈ inserted_keys st2 ->
              (key' +:+ nl) ∈ current_file st
              \/ exists j t,
                   (emitted st ++ [(current_thread st2, (op, qk))]) !! j
                   = Some (t, ("i", key'))) as Hins'.
    { intros key' Hin.
      destruct Hcases as [(k & ? & _ & Hik)|[[? Hik]|(e' & ? & _)]];
        [| |done]; rewrite Hik in Hin.
      - destruct (Hins Hpos key' Hin) as [?|(j & t & Hj)]; [by left|].
        right. exists j, t. by apply lookup_app_l_Some.
      - simplify_eq. apply elem_of_app in Hin as [Hin|Hin].
        + destruct (Hins Hpos key' Hin) as [?|(j & t & Hj)]; [by left|].
          right. exists j, t. by apply lookup_app_l_Some.
        + apply list_elem_of_singleton in Hin as ->.
          right. exists (length (emitted st)), (current_thread st2).
          by rewrite list_lookup_middle. }
    constructor; simpl; rewrite ?F4, ?F7.
    + intros _. done.
    + intros k t key' Hk.
      destruct (decide (k < length (emitted st))) as [Hlt|Hge].
      * rewrite lookup_app_l in Hk by done.
        destruct (Hscan k t key' Hk) as [?|(j & t' & ? & Hj)]; [by left|].
        right. exists j, t'. split; [done|]. by apply lookup_app_l_Some.
      * apply lookup_lt_Some in Hk as Hk2. rewrite length_app in Hk2.
        simpl in Hk2. assert (k = length (emitted st)) as -> by lia.
        rewrite list_lookup_middle in Hk by done.
        injection Hk as Ht Hop Hqk. subst t op qk.
        destruct Hcases as [(k & Hk & Hin & _)|[[? _]|(e' & ? & _)]];
          [|done..].
        injection Hk as <-.
        destruct (Hins Hpos key' Hin) as [?|(j & t & Hj)]; [by left|].
        right. exists j, t. split; [by eapply lookup_lt_Some|].
        by apply lookup_app_l_Some.
  - constructor; rewrite ?F4, ?F7; [|done].
    intros Hpos. exfalso.
    apply lookup_ge_None in Hf0.
    rewrite F6, F3, (wf_workers cfg st Hwf) in Hf0.
    specialize (Hct Hpos). lia.
Qed.

End InsertedKeys.

Section ScanTargets.
Context {R : RandomGen} (cfg : config).
Implicit Type st : state R.

Lemma route_key_scans_known (key : string) st :
  wf_state cfg st ->
  scans_known cfg st -> scans_known cfg (route_key cfg E key st).2.
Proof.
  intros Hwf Hk. unfold route_key.
  destruct (current_state st) eqn:Hph.
  - destruct (wf_load cfg st Hwf Hph) as (_ & Hem & Hcl).
    destruct Hk as [Hins Hscan]. simpl.
    case_match; simpl; [by constructor|].
    rewrite Hcl. simpl. constructor; simpl.
    + intros Hpos key' Hin. left.
      apply elem_of_app in Hin as [Hin|Hin].
      * destruct (Hins Hpos key' Hin) as [?|(j & t & Hj)];
          [by apply elem_of_app; left|].
        by rewrite Hem in Hj.
      * apply list_elem_of_singleton in Hin as ->.
        apply elem_of_app; right. by apply list_elem_of_singleton.
    + intros k t key' Hlook. by rewrite Hem in Hlook.
  - destruct (Nat.eqb_spec (current_thread st) (NUM_THREADS cfg)) as [Heq|Hne].
    + simpl. case_match.
      * destruct Hk as [Hins Hscan]. by constructor.
      * apply emit_op_scans_known.
        -- by apply wf_state_next_round.
        -- done.
        -- done.
        -- destruct Hk as [Hins Hscan]. by constructor.
    + apply emit_op_scans_known; [done..| |done].
      intros _. pose proof (wf_cursor cfg st Hwf). lia.
Qed.

Lemma reachable_scans_known st : reachable cfg E st -> scans_known cfg st.
Proof.
  induction 1 as [g|st line Hreach IH].
  - constructor; simpl; [intros _ key Hin|intros k t key Hk].
    + by apply elem_of_nil in Hin.
    + done.
  - unfold process_line. destruct (record_key line); [|done].
    apply route_key_scans_known; [|done].
    by apply (reachable_wf cfg E).
Qed.

(** The load phase appends to [inserted_keys] whatever it writes. *)
Lemma reachable_inserted_keys_length (WORKLOAD : workload) st :
  reachable cfg WORKLOAD st ->
  length (current_file st) <= length (inserted_keys st).
Proof.
  induction 1 as [g|st line Hreach IH]; [done|].
  unfold process_line. destruct (record_key line) as [key|]; [|done].
  unfold route_key.
  assert (forall (key' : string) (s : state R),
            length (current_file s) <= length (inserted_keys s) ->
            length (current_file (emit_op WORKLOAD key' s).2)
            <= length (inserted_keys (emit_op WORKLOAD key' s).2)) as Hemit.
  { intros key' s Hs. unfold emit_op, generate_op, randrange.
    repeat case_match; simplify_eq/=; rewrite ?length_app; simpl; lia. }
  repeat case_match; simpl; rewrite ?length_app; simpl; try lia;
    by apply Hemit.
Qed.

End ScanTargets.

(** C7. In a run of workload E the key of every scan operation was inserted
    before: it is a key written to the load file, or the key of an insert
    operation written earlier to a worker file. *)
Theorem scan_keys_previously_inserted {R : RandomGen} (cfg : config)
    (file_list : list (list (list string))) (g : rng_state R)
    (k t : nat) (key : string) :
  emitted (run_workload cfg E file_list g).2 !! k = Some (t, ("s", key)) ->
  (key +:+ nl) ∈ current_file (run_workload cfg E file_list g).2
  \/ exists j t',
       j < k
       /\ emitted (run_workload cfg E file_list g).2 !! j
          = Some (t', ("i", key)).
Proof.
  apply (known_scans cfg), reachable_scans_known, run_workload_reachable.
Qed.

(** [randrange(0, 0)]: a draw below 0.9 with an empty [inserted_keys]. *)
Lemma generate_op_E_empty_raises {R : RandomGen} (key : string)
    (st : state R) :
  inserted_keys st = [] ->
  lt_0_9 (rng_random R (rng st)).1 = true ->
  (generate_op E key st).1 = Raise ValueError.
Proof.
  intros Hnil Hdraw. unfold generate_op, randrange.
  destruct (rng_random R (rng st)) as [r g']. simpl in *.
  rewrite Hdraw, Hnil. done.
Qed.

(** Once the load phase has written a record to the load file,
    [inserted_keys] is not empty and no step raises ValueError. *)
Lemma load_written_no_value_error {R : RandomGen} (cfg : config)
    (st : state R) :
  reachable cfg E st -> current_file st <> [] ->
  inserted_keys st <> []
  /\ (forall key, (generate_op E key st).1 <> Raise ValueError)
  /\ (forall line, (process_line cfg E line st).1 <> Raised ValueError).
Proof.
  intros Hreach Hfile.
  pose proof (reachable_inserted_keys_length cfg E st Hreach) as Hlen.
  assert (inserted_keys st <> []) as Hne.
  { intros Hnil. rewrite Hnil in Hlen. destruct (current_file st); [done|].
    simpl in Hlen. lia. }
  assert (forall (key : string) (s : state R),
            inserted_keys s = inserted_keys st ->
            (generate_op E key s).1 <> Raise ValueError) as Hgen.
  { intros key s Hs. unfold generate_op, randrange.
    destruct (rng_random R (rng s)) as [r g']. simpl. rewrite !Hs.
    repeat case_match; simplify_eq/=; try done.
    match goal with
    | H : (length _ =? 0) = true |- _ => apply Nat.eqb_eq in H
    end.
    destruct (inserted_keys st); done. }
  split; [done|]. split; [by eauto|].
  intros line. unfold process_line.
  destruct (record_key line) as [key|]; [|done].
  assert (forall (key' : string) (s : state R),
            inserted_keys s = inserted_keys st ->
            (emit_op E key' s).1 <> Raised ValueError) as Hemit.
  { intros key' s Hs. unfold emit_op. specialize (Hgen key' s Hs).
    destruct (generate_op E key' s) as [[[op qk]|e] s2]; simpl in *.
    - by destruct (worker_files s2 !! current_thread s2).
    - congruence. }
  unfold route_key. destruct (current_state st) eqn:Hph.
  + destruct (wf_load cfg st (reachable_wf cfg E st Hreach) Hph)
      as (_ & _ & Hcl).
    simpl. rewrite Hcl. by case_match.
  + repeat case_match; simpl; try done; by apply Hemit.
Qed.

(** ** Determinism in the draws *)

(** A generator delivers the same draws as itself from the same state:
    the case of two runs with the same seed. *)
Lemma same_draws_eq (R : RandomGen) : same_draws R R eq.
Proof. constructor; intros; subst; done. Qed.

Section Determinism.
Context {R1 R2 : RandomGen} (rel : rng_state R1 -> rng_state R2 -> Prop).
Hypothesis Hdraws : same_draws R1 R2 rel.
Context (cfg : config) (WORKLOAD : workload).

Lemma randrange_sim (n : nat) (g1 : rng_state R1) (g2 : rng_state R2) :
  rel g1 g2 ->
  (randrange R1 n g1).1 = (randrange R2 n g2).1
  /\ rel (randrange R1 n g1).2 (randrange R2 n g2).2.
Proof.
  intros Hrel. unfold randrange. destruct (n =? 0); [done|].
  destruct (same_randbelow R1 R2 rel Hdraws n g1 g2 Hrel) as [Hv Hr].
  destruct (rng_randbelow R1 n g1), (rng_randbelow R2 n g2). simpl in *.
  by subst.
Qed.

Lemma generate_op_sim (key : string) (st1 : state R1) (st2 : state R2) :
  state_sim rel st1 st2 ->
  (generate_op WORKLOAD key st1).1 = (generate_op WORKLOAD key st2).1
  /\ state_sim rel (generate_op WORKLOAD key st1).2
       (generate_op WORKLOAD key st2).2.
Proof.
  intros Hsim. sim_start st1 st2 Hsim.
  destruct (same_random R1 R2 rel Hdraws _ _ sim_rng0) as [Hv Hr].
  unfold generate_op. simpl.
  destruct (rng_random R1 rng0) as [r1 g1'], (rng_random R2 rng1) as [r2 g2'].
  simpl in *. subst r2.
  destruct WORKLOAD; destruct (lt_0_9 r1); simpl.
  - destruct (length key_buffer1 =? 0); [sim_done|].
    destruct (randrange_sim (length key_buffer1) g1' g2' Hr) as [Hv' Hr'].
    destruct (randrange R1 (length key_buffer1) g1') as [[i1|e1] h1],
      (randrange R2 (length key_buffer1) g2') as [[i2|e2] h2];
      simpl in *; simplify_eq; [|sim_done].
    destruct (key_buffer1 !! i2); sim_done.
  - destruct (length key_buffer1 =? 10); sim_done.
  - destruct (randrange_sim (length inserted_keys1) g1' g2' Hr) as [Hv' Hr'].
    destruct (randrange R1 (length inserted_keys1) g1') as [[i1|e1] h1],
      (randrange R2 (length inserted_keys1) g2') as [[i2|e2] h2];
      simpl in *; simplify_eq; [|sim_done].
    destruct (inserted_keys1 !! i2); sim_done.
  - sim_done.
Qed.

Lemma emit_op_sim (key : string) (st1 : state R1) (st2 : state R2) :
  state_sim rel st1 st2 ->
  (emit_op WORKLOAD key st1).1 = (emit_op WORKLOAD key st2).1
  /\ state_sim rel (emit_op WORKLOAD key st1).2 (emit_op WORKLOAD key st2).2.
Proof.
  intros Hsim. unfold emit_op.
  destruct (generate_op_sim key st1 st2 Hsim) as [Hv Hs].
  destruct (generate_op WORKLOAD key st1) as [[[op1 qk1]|e1] s1],
    (generate_op WORKLOAD key st2) as [[[op2 qk2]|e2] s2];
    simpl in *; simplify_eq; [|sim_done].
  sim_start s1 s2 Hs.
  destruct (worker_files1 !! current_thread1); sim_done.
Qed.

Lemma process_line_sim (line : list string)
    (st1 : state R1) (st2 : state R2) :
  state_sim rel st1 st2 ->
  (process_line cfg WORKLOAD line st1).1
  = (process_line cfg WORKLOAD line st2).1
  /\ state_sim rel (process_line cfg WORKLOAD line st1).2
       (process_line cfg WORKLOAD line st2).2.
Proof.
  intros Hsim. unfold process_line.
  destruct (record_key line) as [key|]; [|done].
  sim_start st1 st2 Hsim. unfold route_key. simpl.
  repeat case_match; simpl;
    first [ sim_done | apply emit_op_sim; constructor; simpl; done ].
Qed.

Lemma read_file_sim (f : list (list string))
    (st1 : state R1) (st2 : state R2) :
  state_sim rel st1 st2 ->
  (read_file cfg WORKLOAD f st1).1 = (read_file cfg WORKLOAD f st2).1
  /\ state_sim rel (read_file cfg WORKLOAD f st1).2
       (read_file cfg WORKLOAD f st2).2.
Proof.
  revert st1 st2. induction f as [|line rest IH]; intros st1 st2 Hsim;
    simpl; [done|].
  destruct (process_line_sim line st1 st2 Hsim) as [Hv Hs].
  destruct (process_line cfg WORKLOAD line st1) as [c1 s1],
    (process_line cfg WORKLOAD line st2) as [c2 s2]. simpl in *. subst c2.
  destruct c1; simpl; auto.
Qed.

Lemma read_files_sim (file_list : list (list (list string)))
    (st1 : state R1) (st2 : state R2) :
  state_sim rel st1 st2 ->
  (read_files cfg WORKLOAD file_list st1).1
  = (read_files cfg WORKLOAD file_list st2).1
  /\ state_sim rel (read_files cfg WORKLOAD file_list st1).2
       (read_files cfg WORKLOAD file_list st2).2.
Proof.
  revert st1 st2. induction file_list as [|f rest IH]; intros st1 st2 Hsim;
    simpl; [done|].
  destruct (read_file_sim f st1 st2 Hsim) as [Hv Hs].
  destruct (read_file cfg WORKLOAD f st1) as [r1 s1],
    (read_file cfg WORKLOAD f st2) as [r2 s2]. simpl in *. subst r2.
  destruct r1; simpl; auto.
Qed.

Lemma run_workload_sim (file_list : list (list (list string)))
    (g1 : rng_state R1) (g2 : rng_state R2) :
  rel g1 g2 ->
  (run_workload cfg WORKLOAD file_list g1).1
  = (run_workload cfg WORKLOAD file_list g2).1
  /\ state_sim rel (run_workload cfg WORKLOAD file_list g1).2
       (run_workload cfg WORKLOAD file_list g2).2.
Proof.
  intros Hrel. apply read_files_sim. by constructor.
Qed.

End Determinism.

(** C9. Two runs of the script over the same input with the same
    configuration, whose generators deliver the same draws -- as two runs
    pinned to the same seed do, see [same_draws_eq] -- leave the same load
    and worker files for both workloads and end the same way: the output
    is a function of the input, the configuration and the draws. *)
Theorem same_draws_same_output {R1 R2 : RandomGen}
    (rel : rng_state R1 -> rng_state R2 -> Prop) (cfg : config)
    (file_list : list (list (list string)))
    (g1 : rng_state R1) (g2 : rng_state R2) :
  same_draws R1 R2 rel -> rel g1 g2 ->
  main cfg file_list g1 = main cfg file_list g2.
Proof.
  intros Hdraws Hrel. unfold main.
  destruct (run_workload_sim rel Hdraws cfg D file_list g1 g2 Hrel)
    as [HrD HsD].
  destruct (run_workload cfg D file_list g1) as [r1 stD1],
    (run_workload cfg D file_list g2) as [r2 stD2]. simpl in *. subst r2.
  assert (output_of stD1 = output_of stD2) as ->.
  { unfold output_of. by destruct HsD as [_ _ _ -> _ -> _ _ _ _]. }
  destruct r1 as [e|]; [done|].
  destruct (run_workload_sim rel Hdraws cfg E file_list (rng stD1) (rng stD2)
              (sim_rng rel stD1 stD2 HsD)) as [HrE HsE].
  destruct (run_workload cfg E file_list (rng stD1)) as [r1 stE1],
    (run_workload cfg E file_list (rng stD2)) as [r2 stE2]. simpl in *.
  subst r2.
  assert (output_of stE1 = output_of stE2) as ->; [|done].
  unfold output_of. by destruct HsE as [_ _ _ -> _ -> _ _ _ _].
Qed.

(** ** Runs on concrete inputs *)

Lemma scenario_run :
  run_workload (R:=TapeGen) (scenario_cfg 3) D [scenario_lines] []
  = (None,
     mkState (R:=TapeGen) thread 0 0 ["keyA/" +:+ nl; "keyB/" +:+ nl] true
       [[]; []]
       [] ["keyA/"; "keyB/"] [] []).
Proof. vm_compute. reflexivity. Qed.

Lemma sample_run_D :
  let res := run_workload (R:=TapeGen) (scenario_cfg 3) D [sample_lines]
               [draw_high; draw_low; 0%N; draw_high] in
  res.1 = None
  /\ emitted res.2
     = [(0, ("i", "keyD/")); (1, ("r", "keyD/")); (0, ("i", "keyF/"));
        (1, ("r", "keyD/"))]
  /\ key_buffer res.2 = ["keyD/"; "keyF/"]
  /\ counter res.2 = 2.
Proof. vm_compute. repeat split; reflexivity. Qed.

Lemma sample_run_E :
  let res := run_workload (R:=TapeGen) (scenario_cfg 3) E [sample_lines]
               [draw_high; draw_low; 7%N; draw_low; 2%N] in
  res.1 = None
  /\ emitted res.2
     = [(0, ("i", "keyD/")); (1, ("s", "keyB/")); (0, ("s", "keyD/"));
        (1, ("s", "keyA/"))]
  /\ inserted_keys res.2 = ["keyA/"; "keyB/"; "keyD/"].
Proof. vm_compute. repeat split; reflexivity. Qed.

(** *** The scenario of the specification *)

(** C1 on the code.  In the scenario the third accepted key, "keyC", is
    the record at which the counter reaches [INIT_KEYS + 1]: the load branch
    switches the phase and goes on to the next line, no operation is written
    for it. *)
Lemma scenario_third_key_no_operation :
  let st := (run_workload (R:=TapeGen) (scenario_cfg 3) D [scenario_lines]
               [draw_low]).2 in
  accepted_keys (scenario_cfg 3) scenario_lines = ["keyA/"; "keyB/"; "keyC/"]
  /\ current_file st = ["keyA/" +:+ nl; "keyB/" +:+ nl]
  /\ emitted st = []
  /\ worker_files st = [[]; []]
  /\ length (emitted st) <> 1.
Proof. vm_compute. repeat split; done. Qed.

(** C1, as the code has it.  In the scenario the load file is
    ["keyA/"; "keyB/"] (the X line is skipped); "keyC" triggers the phase
    transition and is used up by it: no draw is made, no operation is
    written, both worker files stay empty.  The first key of the thread
    phase is the accepted record after it: it yields one operation, written
    to worker file 0, ("r", key) when the draw is below 0.9 (the buffer is
    empty, so the read falls back to the key itself) and ("i", key)
    otherwise. *)
Theorem scenario_transition_consumes_third_key {R : RandomGen}
    (g : rng_state R) (per_thread_keys : nat) :
  let cfg := scenario_cfg per_thread_keys in
  let res := run_workload cfg D [scenario_lines] g in
  (res.1 = None
   /\ current_file res.2 = ["keyA/" +:+ nl; "keyB/" +:+ nl]
   /\ current_state res.2 = thread
   /\ rng res.2 = g
   /\ emitted res.2 = []
   /\ worker_files res.2 = [[]; []])
  /\ forall tag key, tag = "L" \/ tag = "P" ->
       let res' := run_workload cfg D [scenario_lines ++ [[tag; key]]] g in
       let op := if lt_0_9 (rng_random R g).1 then "r" else "i" in
       res'.1 = None
       /\ emitted res'.2 = [(0, (op, pad_key cfg key))]
       /\ worker_files res'.2 = [[op_line (op, pad_key cfg key)]; []].
Proof.
  intros cfg res. split; [subst res cfg; vm_compute; repeat split; done|].
  intros tag key Htag res' op. subst res' op cfg.
  destruct Htag as [-> | ->];
    cbv -[pad_key lt_0_9 op_line rng_random String.append];
    destruct (rng_random R g) as [r g']; destruct (lt_0_9 r);
    cbv -[pad_key lt_0_9 op_line rng_random String.append]; done.
Qed.

(** *** A key longer than [KEY_LENGTH] *)

(** C3 on the code.  A key of 10 characters with [KEY_LENGTH = 5]: the
    padding adds nothing, the run ends normally and the load file holds the
    key at full length. *)
Lemma long_key_accepted :
  let cfg := scenario_cfg 3 in
  let res := run_workload (R:=TapeGen) cfg D [[ ["L"; "keyTooLong"] ]] [] in
  KEY_LENGTH cfg < String.length "keyTooLong"
  /\ record_key ["L"; "keyTooLong"] = Some "keyTooLong"
  /\ pad_key cfg "keyTooLong" = "keyTooLong"
  /\ res.1 = None
  /\ current_file res.2 = ["keyTooLong" +:+ nl].
Proof. vm_compute. repeat split; (done || lia). Qed.

(** C3, as the code has it.  For a raw key longer than [KEY_LENGTH] the
    padding does not fail: the repeat count is negative, no filler is added
    and the key is left as it is, neither padded nor truncated.  In the
    load phase the record is handled like any other: the step ends
    normally, and below [INIT_KEYS] records the key is written to the load
    file at its full length. *)
Theorem long_key_left_unpadded {R : RandomGen} (cfg : config)
    (WORKLOAD : workload) (tag key : string) (st : state R) :
  KEY_LENGTH cfg < String.length key ->
  tag = "L" \/ tag = "P" ->
  reachable cfg WORKLOAD st ->
  current_state st = load ->
  pad_key cfg key = key
  /\ (process_line cfg WORKLOAD [tag; key] st).1 = Continue
  /\ (counter st < INIT_KEYS cfg ->
      current_file (process_line cfg WORKLOAD [tag; key] st).2
      = current_file st ++ [key +:+ nl]).
Proof.
  intros Hlong Htag Hreach Hph.
  pose proof (pad_key_long cfg key Hlong) as Hpad. split; [done|].
  destruct (wf_load cfg st (reachable_wf cfg WORKLOAD st Hreach) Hph)
    as (_ & _ & Hcl).
  assert (record_key [tag; key] = Some key) as Hrec
    by (by destruct Htag as [-> | ->]).
  unfold process_line. rewrite Hrec, Hpad. unfold route_key. rewrite Hph.
  simpl. rewrite Hcl. split.
  - by case_match.
  - intros Hlt.
    destruct (Nat.eqb_spec (counter st + 1) (INIT_KEYS cfg + 1)); [lia|done].
Qed.

Lemma long_key_left_unpadded_witness :
  pad_key (scenario_cfg 3) "keyTooLong" = "keyTooLong"
  /\ (process_line (R:=TapeGen) (scenario_cfg 3) D ["L"; "keyTooLong"]
        (init_state (R:=TapeGen) (scenario_cfg 3) [])).1 = Continue
  /\ (counter (init_state (R:=TapeGen) (scenario_cfg 3) [])
      < INIT_KEYS (scenario_cfg 3) ->
      current_file
        (process_line (R:=TapeGen) (scenario_cfg 3) D ["L"; "keyTooLong"]
           (init_state (R:=TapeGen) (scenario_cfg 3) [])).2
      = current_file (init_state (R:=TapeGen) (scenario_cfg 3) [])
        ++ ["keyTooLong" +:+ nl]).
Proof.
  apply (long_key_left_unpadded (R:=TapeGen) (scenario_cfg 3) D "L"
           "keyTooLong" (init_state (R:=TapeGen) (scenario_cfg 3) [])).
  - simpl. lia.
  - left. reflexivity.
  - apply reachable_init.
  - reflexivity.
Defined.

(** ** The bound on the number of operations *)

Section OperationBound.
Context {R : RandomGen} (cfg : config) (WORKLOAD : workload).
Implicit Type st : state R.







End OperationBound.


(** *** Reaching the bound with more than one input file *)

(** C2 on the code.  Two threads, [PER_THREAD_KEYS = 2], three input files.
    In the first file the round counter reaches [PER_THREAD_KEYS - 1] at
    "k04" and the loop over that file is left with two operations written.
    The loop over [file_list] goes on: the second and the third file are
    opened and read, each yields two more operations before the test
    breaks again.  Six operations are written, the bound is four. *)
Lemma break_leaves_one_file_only :
  let first := run_workload (R:=TapeGen) overrun_cfg D (take 1 overrun_files) [] in
  let res := run_workload (R:=TapeGen) overrun_cfg D overrun_files [] in
  (first.1 = None
   /\ counter first.2 = PER_THREAD_KEYS overrun_cfg - 1
   /\ worker_files first.2 = [["r k02" +:+ nl]; ["r k03" +:+ nl]])
  /\ res.1 = None
  /\ worker_files res.2
     = [["r k02" +:+ nl; "r k06" +:+ nl; "r k09" +:+ nl];
        ["r k03" +:+ nl; "r k07" +:+ nl; "r k10" +:+ nl]]
  /\ total_ops res.2 = 6
  /\ NUM_THREADS overrun_cfg * PER_THREAD_KEYS overrun_cfg = 4.
Proof. vm_compute. repeat split; reflexivity. Qed.

(** *** Workload E with an empty load phase *)

(** C10 on the code.  With [INIT_KEYS = 0] the first accepted record,
    "keyA", is processed in the load phase: the load branch takes it, and
    as the counter reaches [INIT_KEYS + 1] it only switches the phase.
    Nothing is appended to [inserted_keys]; at the next record, "keyB", a
    draw below 0.9 calls [randrange(0, 0)], which raises ValueError. *)
Lemma scan_with_empty_load_raises :
  let cfg := {| NUM_THREADS := 2; INIT_KEYS := 0; PER_THREAD_KEYS := 3;
                KEY_LENGTH := 5 |} in
  let first := process_line (R:=TapeGen) cfg E ["L"; "keyA"]
                 (init_state (R:=TapeGen) cfg [draw_low]) in
  let res := run_workload (R:=TapeGen) cfg E
               [[ ["L"; "keyA"]; ["L"; "keyB"] ]] [draw_low] in
  (record_key ["L"; "keyA"] = Some "keyA"
   /\ current_state (init_state (R:=TapeGen) cfg [draw_low]) = load
   /\ first.1 = Continue
   /\ current_state first.2 = thread
   /\ inserted_keys first.2 = [])
  /\ res.1 = Some ValueError
  /\ current_file res.2 = []
  /\ inserted_keys res.2 = []
  /\ emitted res.2 = [].
Proof. vm_compute. repeat split; reflexivity. Qed.

(** *** Instances *)

Lemma round_robin_assignment_witness :
  1 = 3 `mod` NUM_THREADS (scenario_cfg 3)
  /\ exists f,
       worker_files
         (run_workload (R:=TapeGen) (scenario_cfg 3) D [sample_lines]
            [draw_high; draw_low; 0%N; draw_high]).2 !! 1 = Some f
       /\ f !! (3 `div` NUM_THREADS (scenario_cfg 3))
          = Some (op_line ("r", "keyD/")).
Proof.
  apply (round_robin_assignment (R:=TapeGen) (scenario_cfg 3) D [sample_lines]
           [draw_high; draw_low; 0%N; draw_high] 3 1 ("r", "keyD/")).
  vm_compute. reflexivity.
Defined.

Lemma eviction_run :
  key_buffer eviction_state
  = ["k03"; "k04"; "k05"; "k06"; "k07"; "k08"; "k09"; "k10"; "k11"; "k12"]
  /\ length (emitted eviction_state) = 12.
Proof. vm_compute. split; reflexivity. Qed.

Lemma key_buffer_at_most_10_witness :
  length (key_buffer eviction_state) <= 10
  /\ forall key,
       lt_0_9 (rng_random TapeGen (rng eviction_state)).1 = false ->
       (generate_op D key eviction_state).1 = Return ("i", key)
       /\ (length (key_buffer eviction_state) < 10 ->
           key_buffer (generate_op D key eviction_state).2
           = key_buffer eviction_state ++ [key])
       /\ (forall oldest rest,
             key_buffer eviction_state = oldest :: rest ->
             length (key_buffer eviction_state) = 10 ->
             key_buffer (generate_op D key eviction_state).2 = rest ++ [key]).
Proof.
  apply (key_buffer_at_most_10 eviction_cfg eviction_state).
  apply run_workload_reachable.
Defined.

Lemma scan_keys_previously_inserted_witness :
  ("keyD/" +:+ nl)
    ∈ current_file
        (run_workload (R:=TapeGen) (scenario_cfg 3) E [sample_lines]
           [draw_high; draw_low; 7%N; draw_low; 2%N]).2
  \/ exists j t',
       j < 2
       /\ emitted
            (run_workload (R:=TapeGen) (scenario_cfg 3) E [sample_lines]
               [draw_high; draw_low; 7%N; draw_low; 2%N]).2 !! j
          = Some (t', ("i", "keyD/")).
Proof.
  apply (scan_keys_previously_inserted (R:=TapeGen) (scenario_cfg 3)
           [sample_lines] [draw_high; draw_low; 7%N; draw_low; 2%N] 2 0).
  vm_compute. reflexivity.
Defined.

Lemma tape_padded_same_draws : same_draws TapeGen TapeGen tape_padded.
Proof.
  constructor.
  - intros g1 g2 [-> | [-> ->]]; [destruct g1 as [|x g1]|]; simpl;
      (split; [reflexivity|]); unfold tape_padded; auto.
  - intros n g1 g2 [-> | [-> ->]]; [destruct g1 as [|x g1]|]; simpl;
      (split; [first [reflexivity | symmetry; apply (Nat.Div0.mod_0_l n)]|]);
      unfold tape_padded; auto.
Qed.

Lemma same_draws_same_output_witness :
  main (R:=TapeGen) (scenario_cfg 3) [sample_lines] [draw_high; draw_low; 7%N]
  = main (R:=TapeGen) (scenario_cfg 3) [sample_lines]
      [draw_high; draw_low; 7%N; 0%N].
Proof.
  apply (same_draws_same_output (R1:=TapeGen) (R2:=TapeGen) tape_padded).
  - apply tape_padded_same_draws.
  - left. reflexivity.
Defined.

(** * Further properties of the converter *)

(** ** Rejected lines *)

Section RejectedLines.
Context {R : RandomGen} (cfg : config) (WORKLOAD : workload).
Implicit Type st : state R.

Lemma read_file_accepted_lines (f : list (list string)) st :
  read_file cfg WORKLOAD (accepted_lines f) st = read_file cfg WORKLOAD f st.
Proof.
  revert st. induction f as [|line rest IH]; intros st; [done|].
  unfold accepted_lines in *.
  destruct (record_key line) as [key|] eqn:Hrec.
  - rewrite filter_cons_True by (by rewrite Hrec). simpl.
    destruct (process_line cfg WORKLOAD line st) as [[| |e] st']; auto.
  - rewrite filter_cons_False by (rewrite Hrec; by intros [? ?]). simpl.
    unfold process_line. rewrite Hrec. apply IH.
Qed.

Lemma read_files_accepted_lines (file_list : list (list (list string))) st :
  read_files cfg WORKLOAD (accepted_lines <$> file_list) st
  = read_files cfg WORKLOAD file_list st.
Proof.
  revert st. induction file_list as [|f rest IH]; intros st; [done|].
  simpl. rewrite read_file_accepted_lines.
  destruct (read_file cfg WORKLOAD f st) as [[e|] st']; auto.
Qed.

End RejectedLines.

(** X2. Lines the record filter rejects (fewer than two fields, or a first
    field other than L and P) have no effect at all: the script leaves the
    same files and ends the same way as on the input with these lines
    removed. *)
Theorem rejected_lines_have_no_effect {R : RandomGen} (cfg : config)
    (file_list : list (list (list string))) (g : rng_state R) :
  main cfg (accepted_lines <$> file_list) g = main cfg file_list g.
Proof.
  unfold main, run_workload. rewrite read_files_accepted_lines.
  destruct (read_files cfg D file_list (init_state cfg g)) as [[e|] stD];
    [done|].
  by rewrite read_files_accepted_lines.
Qed.

(** ** The phase and the load file at the end of a pass *)

Section PhaseAtEnd.
Context {R : RandomGen} (cfg : config) (WORKLOAD : workload).
Implicit Type st : state R.

(** In the load phase the counter is the number of lines of the load file;
    in the thread phase the load file holds [INIT_KEYS] lines. *)
Lemma reachable_load_counter st :
  reachable cfg WORKLOAD st ->
  (current_state st = load ->
   counter st = length (current_file st) /\ counter st <= INIT_KEYS cfg)
  /\ (current_state st = thread -> length (current_file st) = INIT_KEYS cfg).
Proof.
  induction 1 as [g|st line Hreach [IHl IHt]]; [simpl; split; [lia|done]|].
  destruct (current_state st) eqn:Hph.
  - destruct IHl as [Hc Hle]; [done|].
    destruct (wf_load cfg st (reachable_wf cfg WORKLOAD st Hreach) Hph)
      as (_ & _ & Hcl).
    unfold process_line. destruct (record_key line) as [key|]; simpl;
      [|rewrite Hph; split; [done|done]].
    unfold route_key. rewrite Hph. simpl. rewrite Hcl.
    destruct (Nat.eqb_spec (counter st + 1) (INIT_KEYS cfg + 1)); simpl.
    + split; [done|]. intros _. lia.
    + rewrite Hph, length_app. simpl. split; [lia|done].
  - destruct (process_line_thread cfg WORKLOAD line st Hph) as (-> & -> & _).
    split; [done|]. intros _. by apply IHt.
Qed.

Lemma read_files_phase (file_list : list (list (list string))) st :
  current_state st = load ->
  current_file_closed st = false ->
  counter st <= INIT_KEYS cfg ->
  let ks := accepted_keys cfg (concat file_list) in
  (length ks <= INIT_KEYS cfg - counter st ->
   current_state (read_files cfg WORKLOAD file_list st).2 = load)
  /\ (INIT_KEYS cfg - counter st < length ks ->
      current_state (read_files cfg WORKLOAD file_list st).2 = thread).
Proof.
  revert st. induction file_list as [|f rest IH]; intros st Hph Hcl Hc; simpl.
  { split; [done|]. simpl. lia. }
  rewrite accepted_keys_app, length_app.
  destruct (read_file_load cfg WORKLOAD f st Hph Hcl Hc) as (_ & Hstay & Hgo).
  simpl in *.
  destruct (decide (length (accepted_keys cfg f)
                    <= INIT_KEYS cfg - counter st)) as [Hle|Hgt].
  - destruct (Hstay Hle) as (Hres & Hph' & Hcl' & Hc').
    destruct (read_file cfg WORKLOAD f st) as [r st']. simpl in *. subst r.
    destruct (IH st' Hph' Hcl') as [IHl IHt]; [lia|].
    split; intros Hlen; [apply IHl|apply IHt]; lia.
  - assert (current_state (read_file cfg WORKLOAD f st).2 = thread) as Hph'
      by (apply Hgo; lia).
    split; [lia|]. intros _.
    destruct (read_file cfg WORKLOAD f st) as [[e|] st']; simpl in *;
      [done|].
    by destruct (read_files_thread cfg WORKLOAD rest st' Hph') as [_ ->].
Qed.

End PhaseAtEnd.

(** X3. A pass is in the thread phase at its end exactly when the input
    holds more than [INIT_KEYS] accepted records, and exactly then the
    script has closed the load file: on a shorter input [current_file.close]
    is never called. *)
Theorem load_file_closed_iff {R : RandomGen} (cfg : config)
    (WORKLOAD : workload) (file_list : list (list (list string)))
    (g : rng_state R) :
  let st := (run_workload cfg WORKLOAD file_list g).2 in
  let total := length (accepted_keys cfg (concat file_list)) in
  (current_state st = thread <-> INIT_KEYS cfg < total)
  /\ (current_file_closed st = true <-> INIT_KEYS cfg < total).
Proof.
  intros st total.
  pose proof (run_workload_reachable cfg WORKLOAD file_list g) as Hreach.
  fold st in Hreach.
  destruct (read_files_phase cfg WORKLOAD file_list (init_state cfg g))
    as [Hl Ht]; [done|done|simpl; lia|].
  simpl in Hl, Ht. rewrite Nat.sub_0_r in Hl, Ht.
  fold total in Hl, Ht. change (read_files cfg WORKLOAD file_list
    (init_state cfg g)).2 with st in Hl, Ht.
  assert (current_state st = thread <-> INIT_KEYS cfg < total) as Hiff.
  { split; [|done]. intros Hph.
    destruct (decide (INIT_KEYS cfg < total)); [done|].
    rewrite Hl in Hph by lia. done. }
  split; [done|]. rewrite <- Hiff. split.
  - intros Hcl. destruct (current_state st) eqn:Hph; [|done].
    destruct (wf_load cfg st (reachable_wf cfg WORKLOAD st Hreach) Hph)
      as (_ & _ & Hcl').
    congruence.
  - by apply (reachable_thread_closed cfg WORKLOAD).
Qed.

(** ** Runs that end normally *)

Section NoException.
Context {R : RandomGen} (cfg : config).
Implicit Type st : state R.

(** Workload D never raises in [generate_op]: [randrange] is called on a
    buffer that is not empty, and its result indexes the buffer. *)
Lemma generate_op_D_returns (key : string) st :
  exists o, (generate_op D key st).1 = Return o.
Proof.
  unfold generate_op, randrange.
  destruct (rng_random R (rng st)) as [r g']. simpl.
  destruct (lt_0_9 r); [|by eauto].
  destruct (Nat.eqb_spec (length (key_buffer st)) 0) as [|Hne]; [by eauto|].
  pose proof (rng_randbelow_lt R (length (key_buffer st)) g') as Hlt.
  destruct (rng_randbelow R (length (key_buffer st)) g') as [i g'']. simpl in *.
  destruct (lookup_lt_is_Some_2 (key_buffer st) i) as [k Hk]; [lia|].
  rewrite Hk. by eauto.
Qed.

Lemma generate_op_E_returns (key : string) st :
  inserted_keys st <> [] -> exists o, (generate_op E key st).1 = Return o.
Proof.
  intros Hne. unfold generate_op, randrange.
  destruct (rng_random R (rng st)) as [r g']. simpl.
  destruct (lt_0_9 r); [|by eauto].
  destruct (Nat.eqb_spec (length (inserted_keys st)) 0) as [Hz|Hnz].
  { destruct (inserted_keys st); done. }
  pose proof (rng_randbelow_lt R (length (inserted_keys st)) g') as Hlt.
  destruct (rng_randbelow R (length (inserted_keys st)) g') as [i g''].
  simpl in *.
  destruct (lookup_lt_is_Some_2 (inserted_keys st) i) as [k Hk]; [lia|].
  rewrite Hk. by eauto.
Qed.

Lemma emit_op_continues (WORKLOAD : workload) (key : string) st :
  wf_state cfg st ->
  current_thread st < NUM_THREADS cfg ->
  (exists o, (generate_op WORKLOAD key st).1 = Return o) ->
  (emit_op WORKLOAD key st).1 = Continue.
Proof.
  intros Hwf Hct [o Ho]. unfold emit_op.
  pose proof (generate_op_frame WORKLOAD key st) as Hfr.
  destruct (generate_op WORKLOAD key st) as [r st2]. simpl in *. subst r.
  destruct Hfr as (_ & _ & F3 & _ & _ & F6 & _). destruct o as [op qk].
  destruct (lookup_lt_is_Some_2 (worker_files st2) (current_thread st2))
    as [f Hf].
  { rewrite F6, F3, (wf_workers cfg st Hwf). done. }
  by rewrite Hf.
Qed.

Lemma process_line_no_exception (WORKLOAD : workload)
    (line : list string) st :
  0 < NUM_THREADS cfg ->
  WORKLOAD = D \/ 0 < INIT_KEYS cfg ->
  reachable cfg WORKLOAD st ->
  forall e, (process_line cfg WORKLOAD line st).1 <> Raised e.
Proof.
  intros HN Hwl Hreach e.
  pose proof (reachable_wf cfg WORKLOAD st Hreach) as Hwf.
  unfold process_line. destruct (record_key line) as [key|]; [|done].
  unfold route_key. destruct (current_state st) eqn:Hph.
  - destruct (wf_load cfg st Hwf Hph) as (_ & _ & Hcl).
    simpl. rewrite Hcl. by case_match.
  - assert (forall s : state R,
              inserted_keys s = inserted_keys st ->
              exists o, (generate_op WORKLOAD (pad_key cfg key) s).1 = Return o)
      as Hgen.
    { intros s Hs. destruct Hwl as [-> | Hinit].
      - apply generate_op_D_returns.
      - destruct WORKLOAD; [apply generate_op_D_returns|].
        apply generate_op_E_returns. rewrite Hs.
        pose proof (reachable_inserted_keys_length cfg E st Hreach) as Hlen.
        destruct (reachable_load_counter cfg E st Hreach) as [_ Hfile].
        rewrite (Hfile Hph) in Hlen.
        destruct (inserted_keys st); simpl in *; [lia|done]. }
    destruct (Nat.eqb_spec (current_thread st) (NUM_THREADS cfg)) as [Heq|Hne].
    + simpl. case_match; [done|].
      rewrite emit_op_continues; [done| |simpl; lia|by apply Hgen].
      by apply wf_state_next_round.
    + rewrite emit_op_continues; [done|done| |by apply Hgen].
      pose proof (wf_cursor cfg st Hwf). lia.
Qed.

Lemma read_file_no_exception (WORKLOAD : workload)
    (f : list (list string)) st :
  0 < NUM_THREADS cfg ->
  WORKLOAD = D \/ 0 < INIT_KEYS cfg ->
  reachable cfg WORKLOAD st ->
  (read_file cfg WORKLOAD f st).1 = None.
Proof.
  intros HN Hwl. revert st. induction f as [|line rest IH]; intros st Hreach;
    simpl; [done|].
  pose proof (process_line_no_exception WORKLOAD line st HN Hwl Hreach) as Hne.
  pose proof (reachable_step cfg WORKLOAD st line Hreach) as Hstep.
  destruct (process_line cfg WORKLOAD line st) as [[| |e] st']; simpl in *;
    [by apply IH|done|].
  by destruct (Hne e).
Qed.

Lemma read_files_no_exception (WORKLOAD : workload)
    (file_list : list (list (list string))) st :
  0 < NUM_THREADS cfg ->
  WORKLOAD = D \/ 0 < INIT_KEYS cfg ->
  reachable cfg WORKLOAD st ->
  (read_files cfg WORKLOAD file_list st).1 = None.
Proof.
  intros HN Hwl. revert st.
  induction file_list as [|f rest IH]; intros st Hreach; simpl; [done|].
  pose proof (read_file_no_exception WORKLOAD f st HN Hwl Hreach) as Hnone.
  pose proof (read_file_reachable cfg WORKLOAD f st Hreach) as Hreach'.
  destruct (read_file cfg WORKLOAD f st) as [r st']. simpl in *. subst r.
  by apply IH.
Qed.

End NoException.

(** X4. The statements of the script raise nothing on lines that were
    read.  The model starts from the lines [readline] returned: errors of
    the file system and of decoding in [open], [readline] and [write] are
    not part of it.  With at least one worker thread the pass for workload D
    raises none of the exceptions its statements can raise: no ValueError
    from [randrange] on an empty range or from a write to the closed load
    file, no IndexError from an index into [key_buffer], [inserted_keys] or
    [worker_files].  With at least one load key in addition
    ([INIT_KEYS >= 1]) neither does the pass for workload E, and the script
    gets through both workloads. *)
Theorem script_ends_normally {R : RandomGen} (cfg : config)
    (file_list : list (list (list string))) (g : rng_state R) :
  0 < NUM_THREADS cfg ->
  (run_workload cfg D file_list g).1 = None
  /\ (0 < INIT_KEYS cfg ->
      (main cfg file_list g).2 = None
      /\ length (main cfg file_list g).1 = 2).
Proof.
  intros HN.
  assert ((run_workload cfg D file_list g).1 = None) as HD.
  { apply read_files_no_exception; [done|by left|apply reachable_init]. }
  split; [done|]. intros Hinit. unfold main.
  destruct (run_workload cfg D file_list g) as [r stD]. simpl in HD. subst r.
  pose proof (read_files_no_exception cfg E file_list
                (init_state cfg (rng stD)) HN (or_intror Hinit)
                (reachable_init cfg E (rng stD))) as HE.
  unfold run_workload.
  destruct (read_files cfg E file_list (init_state cfg (rng stD))) as [r stE].
  simpl in *. by subst r.
Qed.

Lemma script_ends_normally_witness :
  (run_workload (R:=TapeGen) (scenario_cfg 3) D [sample_lines]
     [draw_high; draw_low; 7%N]).1 = None
  /\ (0 < INIT_KEYS (scenario_cfg 3) ->
      (main (R:=TapeGen) (scenario_cfg 3) [sample_lines]
         [draw_high; draw_low; 7%N]).2 = None
      /\ length (main (R:=TapeGen) (scenario_cfg 3) [sample_lines]
                   [draw_high; draw_low; 7%N]).1 = 2).
Proof.
  apply (script_ends_normally (R:=TapeGen) (scenario_cfg 3) [sample_lines]
           [draw_high; draw_low; 7%N]).
  simpl. lia.
Defined.

(** X5. The script writes the same load file for every workload it gets
    to: the padded keys of the first [INIT_KEYS] accepted records of the
    input, whatever the draws. *)
Theorem same_load_file_for_both_workloads {R : RandomGen} (cfg : config)
    (file_list : list (list (list string))) (g : rng_state R) :
  Forall
    (fun out : workload * output =>
       load_file out.2
       = (fun k => k +:+ nl)
           <$> take (INIT_KEYS cfg) (accepted_keys cfg (concat file_list)))
    (main cfg file_list g).1.
Proof.
  assert (forall (WORKLOAD : workload) (g' : rng_state R),
            current_file (run_workload cfg WORKLOAD file_list g').2
            = (fun k => k +:+ nl)
                <$> take (INIT_KEYS cfg)
                      (accepted_keys cfg (concat file_list))) as Hload.
  { intros WORKLOAD g'. unfold run_workload.
    rewrite read_files_load by (done || simpl; lia).
    simpl. by rewrite Nat.sub_0_r. }
  unfold main.
  pose proof (Hload D g) as HD.
  destruct (run_workload cfg D file_list g) as [[e|] stD]; simpl in *.
  { by repeat constructor. }
  pose proof (Hload E (rng stD)) as HE.
  destruct (run_workload cfg E file_list (rng stD)) as [r stE]; simpl in *.
  by repeat constructor.
Qed.

(** ** What the worker files hold *)

(** X6. The worker files hold the written operations and nothing else: line
    [j] of worker file [i] is the operation number [j * NUM_THREADS + i].
    The files are balanced: a file is never longer than a file before it,
    and two files differ by at most one line. *)
Theorem worker_files_hold_the_history {R : RandomGen} (cfg : config)
    (WORKLOAD : workload) (file_list : list (list (list string)))
    (g : rng_state R) :
  let st := (run_workload cfg WORKLOAD file_list g).2 in
  (forall i f j line,
     worker_files st !! i = Some f -> f !! j = Some line ->
     exists o, emitted st !! (j * NUM_THREADS cfg + i) = Some (i, o)
               /\ line = op_line o)
  /\ (forall i1 i2 f1 f2,
        i1 <= i2 ->
        worker_files st !! i1 = Some f1 -> worker_files st !! i2 = Some f2 ->
        length f2 <= length f1 <= length f2 + 1).
Proof.
  intros st.
  pose proof (reachable_wf cfg WORKLOAD st
                (run_workload_reachable cfg WORKLOAD file_list g))
    as [H1 H2 _ H4 H5 H6].
  split.
  - intros i f j line Hf Hj.
    pose proof (lookup_lt_Some _ _ _ Hf) as Hi. rewrite H1 in Hi.
    pose proof (lookup_lt_Some _ _ _ Hj) as Hjlt. rewrite (H5 i f Hf) in Hjlt.
    destruct (lookup_lt_is_Some_2 (emitted st) (j * NUM_THREADS cfg + i))
      as [[t o] Ho].
    { rewrite H4. destruct (Nat.ltb_spec i (current_thread st)); nia. }
    destruct (H6 _ _ _ Ho) as (Ht & f' & Hf' & Hline).
    destruct (div_mod_round (NUM_THREADS cfg) j i Hi) as [Hmod Hdiv].
    rewrite Hmod in Ht. subst t. rewrite Hdiv in Hline.
    exists o. split; [done|]. congruence.
  - intros i1 i2 f1 f2 Hle Hf1 Hf2.
    rewrite (H5 i1 f1 Hf1), (H5 i2 f2 Hf2).
    destruct (Nat.ltb_spec i1 (current_thread st)),
      (Nat.ltb_spec i2 (current_thread st)); lia.
Qed.

(** ** Where the written keys come from *)

Section WrittenKeys.
Context {R : RandomGen} (cfg : config) (WORKLOAD : workload).
Context (S : list string).
Implicit Type st : state R.

Lemma op_codes_insert : "i" ∈ op_codes WORKLOAD.
Proof. destruct WORKLOAD; apply list_elem_of_In; simpl; tauto. Qed.

Lemma generate_op_keys_within (key : string) st :
  key ∈ S ->
  keys_within S WORKLOAD st ->
  keys_within S WORKLOAD (generate_op WORKLOAD key st).2
  /\ (forall op k, (generate_op WORKLOAD key st).1 = Return (op, k) ->
        op ∈ op_codes WORKLOAD /\ k ∈ S).
Proof.
  intros Hkey (Hkb & Hik & Hem). unfold generate_op, randrange, keys_within.
  destruct WORKLOAD; repeat case_match; simplify_eq/=;
    (split; [repeat split; rewrite ?Forall_app, ?Forall_singleton;
             try done; try (split; [|done]);
             by apply Forall_drop
            |intros op k Hret; simplify_eq]).
  all: try (split; [apply list_elem_of_In; simpl; tauto|done]).
  all: split; [apply list_elem_of_In; simpl; tauto|].
  all: match goal with
       | H : _ !! _ = Some ?k |- ?k ∈ S =>
           apply list_elem_of_lookup_2 in H;
           first [by eapply (proj1 (Forall_forall _ _) Hkb)
                 |by eapply (proj1 (Forall_forall _ _) Hik)]
       end.
Qed.

Lemma emit_op_keys_within (key : string) st :
  key ∈ S ->
  keys_within S WORKLOAD st ->
  keys_within S WORKLOAD (emit_op WORKLOAD key st).2.
Proof.
  intros Hkey Hin. unfold emit_op.
  destruct (generate_op_keys_within key st Hkey Hin) as [Hst Hret].
  destruct (generate_op WORKLOAD key st) as [[[op qk]|e] st2]; simpl in *;
    [|done].
  destruct (worker_files st2 !! current_thread st2); [|done].
  destruct Hst as (Hkb & Hik & Hem). destruct (Hret op qk eq_refl).
  unfold keys_within. simpl. rewrite Forall_app, Forall_singleton. done.
Qed.

Lemma process_line_keys_within (line : list string) st :
  (forall key, record_key line = Some key -> pad_key cfg key ∈ S) ->
  keys_within S WORKLOAD st ->
  keys_within S WORKLOAD (process_line cfg WORKLOAD line st).2.
Proof.
  intros Hline Hin. unfold process_line.
  destruct (record_key line) as [key|]; [|done].
  specialize (Hline key eq_refl). unfold route_key.
  destruct Hin as (Hkb & Hik & Hem).
  repeat case_match; simpl;
    try (apply emit_op_keys_within; [done|]);
    unfold keys_within; simpl; rewrite ?Forall_app, ?Forall_singleton; done.
Qed.

Lemma read_file_keys_within (f : list (list string)) st :
  (forall k, k ∈ accepted_keys cfg f -> k ∈ S) ->
  keys_within S WORKLOAD st ->
  keys_within S WORKLOAD (read_file cfg WORKLOAD f st).2.
Proof.
  revert st. induction f as [|line rest IH]; intros st Hsub Hin; simpl;
    [done|].
  assert (keys_within S WORKLOAD (process_line cfg WORKLOAD line st).2)
    as Hstep.
  { apply process_line_keys_within; [|done]. intros key Hrec.
    apply Hsub. unfold accepted_keys. simpl. rewrite Hrec. simpl.
    apply list_elem_of_here. }
  destruct (process_line cfg WORKLOAD line st) as [[| |e] st']; simpl in *;
    [|done..].
  apply IH; [|done]. intros k Hk. apply Hsub.
  unfold accepted_keys in *. simpl.
  destruct (pad_key cfg <$> record_key line);
    [by apply list_elem_of_further|done].
Qed.

Lemma read_files_keys_within (file_list : list (list (list string))) st :
  (forall k, k ∈ accepted_keys cfg (concat file_list) -> k ∈ S) ->
  keys_within S WORKLOAD st ->
  keys_within S WORKLOAD (read_files cfg WORKLOAD file_list st).2.
Proof.
  revert st. induction file_list as [|f rest IH]; intros st Hsub Hin; simpl;
    [done|].
  simpl in Hsub. setoid_rewrite accepted_keys_app in Hsub.
  assert (keys_within S WORKLOAD (read_file cfg WORKLOAD f st).2) as Hf.
  { apply read_file_keys_within; [|done]. intros k Hk. apply Hsub.
    apply elem_of_app. by left. }
  destruct (read_file cfg WORKLOAD f st) as [[e|] st']; simpl in *; [done|].
  apply IH; [|done]. intros k Hk. apply Hsub. apply elem_of_app. by right.
Qed.

End WrittenKeys.

(** X7. No key is invented and no code is foreign: every operation a pass
    writes has a code of its workload ("r" or "i" for D, "s" or "i" for E),
    and its key is the padded key of an accepted record of the input; so is
    every key the recent-key buffer and the list of inserted keys hold. *)
Theorem written_keys_are_accepted_keys {R : RandomGen} (cfg : config)
    (WORKLOAD : workload) (file_list : list (list (list string)))
    (g : rng_state R) :
  keys_within (accepted_keys cfg (concat file_list)) WORKLOAD
    (run_workload cfg WORKLOAD file_list g).2.
Proof.
  apply read_files_keys_within; [done|].
  unfold keys_within. simpl. done.
Qed.

(** ** The width of the written keys *)

Lemma accepted_keys_width (cfg : config) (lines : list (list string)) :
  (forall line key,
     line ∈ lines -> record_key line = Some key ->
     String.length key <= KEY_LENGTH cfg) ->
  forall k, k ∈ accepted_keys cfg lines -> String.length k = KEY_LENGTH cfg.
Proof.
  intros Hshort k Hk. unfold accepted_keys in Hk.
  apply list_elem_of_omap in Hk as (line & Hline & Hrec).
  destruct (record_key line) as [key|] eqn:Hkey; simpl in Hrec; [|done].
  injection Hrec as <-. rewrite length_pad_key.
  specialize (Hshort line key Hline Hkey). lia.
Qed.

(** X8. When no accepted record has a raw key longer than [KEY_LENGTH],
    the output has keys of one width only: every line of the load file is a
    key of exactly [KEY_LENGTH] characters and the newline, and the key of
    every operation written to a worker file has exactly [KEY_LENGTH]
    characters. *)
Theorem written_keys_have_key_length {R : RandomGen} (cfg : config)
    (WORKLOAD : workload) (file_list : list (list (list string)))
    (g : rng_state R) :
  (forall line key,
     line ∈ concat file_list -> record_key line = Some key ->
     String.length key <= KEY_LENGTH cfg) ->
  Forall (fun chunk => String.length chunk = KEY_LENGTH cfg + 1)
    (current_file (run_workload cfg WORKLOAD file_list g).2)
  /\ Forall (fun e : nat * (string * string) =>
               String.length e.2.2 = KEY_LENGTH cfg)
       (emitted (run_workload cfg WORKLOAD file_list g).2).
Proof.
  intros Hshort.
  pose proof (accepted_keys_width cfg (concat file_list) Hshort) as Hwidth.
  split.
  - unfold run_workload. rewrite read_files_load by (done || simpl; lia).
    simpl. apply Forall_fmap, Forall_take, Forall_forall.
    intros k Hk. simpl. rewrite length_append, (Hwidth k Hk). simpl. lia.
  - pose proof (read_files_keys_within cfg WORKLOAD
                  (accepted_keys cfg (concat file_list)) file_list
                  (init_state cfg g)) as (_ & _ & Hem).
    { done. }
    { unfold keys_within. simpl. done. }
    eapply Forall_impl; [exact Hem|]. intros e [_ He]. by apply Hwidth.
Qed.

Lemma written_keys_have_key_length_witness :
  Forall (fun chunk => String.length chunk = KEY_LENGTH (scenario_cfg 3) + 1)
    (current_file
       (run_workload (R:=TapeGen) (scenario_cfg 3) E [sample_lines]
          [draw_high; draw_low; 7%N]).2)
  /\ Forall (fun e : nat * (string * string) =>
               String.length e.2.2 = KEY_LENGTH (scenario_cfg 3))
       (emitted
          (run_workload (R:=TapeGen) (scenario_cfg 3) E [sample_lines]
             [draw_high; draw_low; 7%N]).2).
Proof.
  apply (written_keys_have_key_length (R:=TapeGen) (scenario_cfg 3) E
           [sample_lines] [draw_high; draw_low; 7%N]).
  intros line key Hline Hrec.
  apply list_elem_of_In in Hline. simpl in Hline.
  repeat (destruct Hline as [<- | Hline];
          [vm_compute in Hrec; first [discriminate | injection Hrec as <-];
           vm_compute; lia|]).
  destruct Hline.
Defined.

(** ** The exact number of operations *)

Section ExactCount.
Context {R : RandomGen} (cfg : config) (WORKLOAD : workload).
Implicit Type st : state R.








End ExactCount.



(** ** Workload D: what the buffer holds and what is read *)

Section BufferContents.
Context {R : RandomGen} (cfg : config).
Implicit Type st : state R.

Lemma last_n_snoc {A : Type} (l : list A) (x : A) :
  last_n 10 (l ++ [x])
  = (if length (last_n 10 l) =? 10 then drop 1 (last_n 10 l) else last_n 10 l)
    ++ [x].
Proof.
  unfold last_n. rewrite length_app, length_drop. simpl.
  destruct (Nat.eqb_spec (length l - (length l - 10)) 10) as [Heq|Hne].
  - rewrite drop_drop, drop_app_le by lia. do 2 f_equal. lia.
  - replace (length l + 1 - 10) with 0 by lia.
    replace (length l - 10) with 0 by lia. by rewrite !drop_0.
Qed.

Lemma last_n_nil {A : Type} (l : list A) : last_n 10 l = [] -> l = [].
Proof.
  unfold last_n. intros Hnil. apply (f_equal length) in Hnil.
  rewrite length_drop in Hnil. simpl in Hnil.
  destruct l; [done|]. simpl in Hnil. lia.
Qed.

Lemma insert_keys_snoc (log : list (nat * (string * string)))
    (t : nat) (op k : string) :
  insert_keys (log ++ [(t, (op, k))])
  = insert_keys log ++ (if String.eqb op "i" then [k] else []).
Proof.
  unfold insert_keys. rewrite omap_app. simpl. by destruct (String.eqb op "i").
Qed.

Lemma insert_keys_snoc_insert (log : list (nat * (string * string)))
    (t : nat) (k : string) :
  insert_keys (log ++ [(t, ("i", k))]) = insert_keys log ++ [k].
Proof. by rewrite insert_keys_snoc. Qed.

Lemma insert_keys_snoc_other (log : list (nat * (string * string)))
    (t : nat) (op k : string) :
  op <> "i" -> insert_keys (log ++ [(t, (op, k))]) = insert_keys log.
Proof.
  intros Hop. rewrite insert_keys_snoc.
  destruct (String.eqb_spec op "i"); [done|]. by rewrite app_nil_r.
Qed.

Lemma generate_op_D_cases (key : string) st :
  ((generate_op D key st).1 = Return ("r", key)
   /\ key_buffer st = []
   /\ key_buffer (generate_op D key st).2 = key_buffer st)
  \/ (exists k, (generate_op D key st).1 = Return ("r", k)
                /\ k ∈ key_buffer st
                /\ key_buffer (generate_op D key st).2 = key_buffer st)
  \/ ((generate_op D key st).1 = Return ("i", key)
      /\ key_buffer (generate_op D key st).2
         = (if length (key_buffer st) =? 10 then drop 1 (key_buffer st)
            else key_buffer st) ++ [key])
  \/ (exists e, (generate_op D key st).1 = Raise e
                /\ key_buffer (generate_op D key st).2 = key_buffer st).
Proof.
  unfold generate_op, randrange.
  destruct (rng_random R (rng st)) as [r g']. simpl.
  destruct (lt_0_9 r).
  - destruct (Nat.eqb_spec (length (key_buffer st)) 0) as [Hz|Hnz].
    + left. simpl. split; [done|]. split; [by apply nil_length_inv|done].
    + destruct (rng_randbelow R (length (key_buffer st)) g') as [i g''].
      simpl. destruct (key_buffer st !! i) as [k|] eqn:Hk.
      * right; left. exists k. split; [done|]. split; [|done].
        by eapply list_elem_of_lookup_2.
      * right; right; right. by eauto.
  - right; right; left. split; [done|].
    by destruct (length (key_buffer st) =? 10).
Qed.

Lemma emit_op_tracks (key : string) st :
  wf_state cfg st ->
  current_thread st < NUM_THREADS cfg ->
  buffer_tracks_inserts st ->
  buffer_tracks_inserts (emit_op D key st).2.
Proof.
  intros Hwf Hct [Hbuf Hreads]. unfold emit_op.
  pose proof (generate_op_frame D key st) as Hfr.
  pose proof (generate_op_D_cases key st) as Hcases.
  destruct (generate_op D key st) as [r st2]. simpl in *.
  destruct Hfr as (_ & _ & F3 & _ & _ & F6 & F7).
  destruct (lookup_lt_is_Some_2 (worker_files st2) (current_thread st2))
    as [f0 Hf0].
  { rewrite F6, F3, (wf_workers cfg st Hwf). done. }
  destruct r as [[op qk]|e].
  - rewrite Hf0. simpl.
    assert (forall p t k,
              (emitted st ++ [(current_thread st2, (op, qk))]) !! p
              = Some (t, ("r", k)) ->
              p < length (emitted st) ->
              insert_keys
                (take p (emitted st ++ [(current_thread st2, (op, qk))])) = []
              \/ k ∈ last_n 10
                     (insert_keys
                        (take p
                           (emitted st ++ [(current_thread st2, (op, qk))]))))
      as Hold.
    { intros p t k Hp Hlt. rewrite lookup_app_l in Hp by done.
      rewrite take_app_le by lia. by eapply Hreads. }
    assert (forall p t k,
              (emitted st ++ [(current_thread st2, (op, qk))]) !! p
              = Some (t, ("r", k)) ->
              ~ p < length (emitted st) ->
              p = length (emitted st) /\ op = "r" /\ qk = k) as Hnew.
    { intros p t k Hp Hge. apply lookup_lt_Some in Hp as Hp2.
      rewrite length_app in Hp2. simpl in Hp2.
      assert (p = length (emitted st)) as -> by lia.
      rewrite list_lookup_middle in Hp by done. by simplify_eq. }
    destruct Hcases as [(Hr & Hnil & Hkb)|[(k' & Hr & Hin & Hkb)
                       |[(Hr & Hkb)|(e & Hr & _)]]]; [| | |done];
      injection Hr as -> ->; constructor; simpl; rewrite ?F7.
    + by rewrite Hkb, insert_keys_snoc_other.
    + intros p t k Hp.
      destruct (decide (p < length (emitted st))); [by eapply Hold|].
      destruct (Hnew p t k Hp) as (-> & _ & <-); [done|].
      rewrite take_app_length. left.
      apply last_n_nil. by rewrite <- Hbuf.
    + by rewrite Hkb, insert_keys_snoc_other.
    + intros p t k Hp.
      destruct (decide (p < length (emitted st))); [by eapply Hold|].
      destruct (Hnew p t k Hp) as (-> & _ & <-); [done|].
      rewrite take_app_length. right. by rewrite <- Hbuf.
    + by rewrite Hkb, insert_keys_snoc_insert, last_n_snoc, <- Hbuf.
    + intros p t k Hp.
      destruct (decide (p < length (emitted st))); [by eapply Hold|].
      by destruct (Hnew p t k Hp) as (_ & ? & _).
  - simpl. destruct Hcases as [(? & _)|[(k' & ? & _)|[(? & _)|(e' & _ & Hkb)]]];
      [done..|].
    constructor; rewrite ?Hkb, ?F7; done.
Qed.

Lemma reachable_tracks st :
  0 < NUM_THREADS cfg ->
  reachable cfg D st -> buffer_tracks_inserts st.
Proof.
  intros HN. induction 1 as [g|st line Hreach IH].
  { constructor; simpl; [done|]. intros p t k Hp. done. }
  pose proof (reachable_wf cfg D st Hreach) as Hwf.
  unfold process_line. destruct (record_key line) as [key|]; [|done].
  unfold route_key. destruct IH as [Hbuf Hreads].
  destruct (current_state st) eqn:Hph.
  - simpl. repeat case_match; simpl; by constructor.
  - destruct (Nat.eqb_spec (current_thread st) (NUM_THREADS cfg)) as [Heq|Hne].
    + simpl. case_match; [by constructor|].
      apply emit_op_tracks; [by apply wf_state_next_round|simpl; lia|].
      by constructor.
    + apply emit_op_tracks; [done| |by constructor].
      pose proof (wf_cursor cfg st Hwf). lia.
Qed.

End BufferContents.

Section RecentKeyStep.
Context {R : RandomGen} (cfg : config).
Implicit Type st : state R.

Lemma emit_op_recent (line : list string) (key : string) st st0 :
  record_key line = Some key ->
  emitted st0 = emitted st ->
  key_buffer st0 = last_n 10 (insert_keys (emitted st)) ->
  recent_key_step cfg line st (emit_op D (pad_key cfg key) st0).2.
Proof.
  intros Hrec Hem Hbuf. unfold emit_op, recent_key_step.
  pose proof (generate_op_frame D (pad_key cfg key) st0) as Hfr.
  pose proof (generate_op_D_cases (pad_key cfg key) st0) as Hcases.
  destruct (generate_op D (pad_key cfg key) st0) as [r st2]. simpl in *.
  destruct Hfr as (_ & _ & _ & _ & _ & _ & F7).
  destruct r as [[op qk]|e]; [|left; simpl; congruence].
  destruct (worker_files st2 !! current_thread st2);
    [|left; simpl; congruence].
  right. exists key, (current_thread st2). split; [done|].
  simpl. rewrite F7, Hem.
  destruct Hcases as [(Hr & Hnil & _)|[(k' & Hr & Hin & _)
                     |[(Hr & _)|(e & Hr & _)]]]; [| | |done];
    injection Hr as -> ->.
  - right; left. split; [|done].
    apply last_n_nil. by rewrite <- Hbuf.
  - right; right. exists k'. split; [|done]. by rewrite <- Hbuf.
  - by left.
Qed.

Lemma process_line_recent (line : list string) st :
  key_buffer st = last_n 10 (insert_keys (emitted st)) ->
  recent_key_step cfg line st (process_line cfg D line st).2.
Proof.
  intros Hbuf. unfold process_line.
  destruct (record_key line) as [key|] eqn:Hrec; [|by left].
  unfold route_key. destruct (current_state st).
  - left. by repeat case_match.
  - repeat case_match; try (by left); by apply emit_op_recent.
Qed.

End RecentKeyStep.

(** X10. Workload D with at least one worker thread, at every point of a
    pass.  The recent-key buffer holds the keys of the last ten insert
    operations written, oldest first, fewer when fewer were written, and
    every read operation written after some insert reads the key of one of
    the ten inserts before it.  The next line adds nothing to the history
    or one operation for its key: an insert of the key of the line, or a
    read; a read made before any insert reads the key of the line itself, a
    read made after an insert the key of one of the last ten inserts. *)
Theorem buffer_holds_last_ten_inserts {R : RandomGen} (cfg : config)
    (st : state R) :
  0 < NUM_THREADS cfg ->
  reachable cfg D st ->
  buffer_tracks_inserts st
  /\ forall line,
       recent_key_step cfg line st (process_line cfg D line st).2.
Proof.
  intros HN Hreach.
  pose proof (reachable_tracks cfg st HN Hreach) as Htr.
  split; [done|]. intros line.
  apply process_line_recent. by destruct Htr.
Qed.

(** The pass [recent_state]: its first operation is a read before any
    insert, of the key of its own record; the reads after the insert read
    the inserted key. *)
Lemma buffer_holds_last_ten_inserts_witness :
  (emitted recent_state
   = [(0, ("r", "keyD/")); (1, ("i", "keyE/")); (0, ("r", "keyE/"));
      (1, ("r", "keyE/"))]
   /\ key_buffer recent_state = ["keyE/"])
  /\ buffer_tracks_inserts recent_state
  /\ forall line,
       recent_key_step (scenario_cfg 3) line recent_state
         (process_line (scenario_cfg 3) D line recent_state).2.
Proof.
  split; [vm_compute; split; reflexivity|].
  apply (buffer_holds_last_ten_inserts (scenario_cfg 3) recent_state).
  - simpl. lia.
  - apply run_workload_reachable.
Defined.

(** ** What the list of inserted keys holds *)

Section InsertedKeysContents.
Context {R : RandomGen} (cfg : config) (WORKLOAD : workload).
Implicit Type st : state R.

Lemma append_inj_r (s1 s2 t : string) : s1 +:+ t = s2 +:+ t -> s1 = s2.
Proof.
  revert s2. induction s1 as [|c s1 IH]; intros s2 Heq.
  - apply (f_equal String.length) in Heq. rewrite !length_append in Heq.
    simpl in Heq. destruct s2; [done|]. simpl in Heq. lia.
  - destruct s2 as [|c2 s2].
    + apply (f_equal String.length) in Heq. rewrite !length_append in Heq.
      simpl in Heq. lia.
    + rewrite !append_cons in Heq. injection Heq as -> Heq.
      f_equal. by apply IH.
Qed.

Lemma fmap_append_nl_inj (l1 l2 : list string) :
  (fun k => k +:+ nl) <$> l1 = (fun k => k +:+ nl) <$> l2 -> l1 = l2.
Proof.
  revert l2. induction l1 as [|k1 l1 IH]; intros [|k2 l2] Heq; simpl in Heq;
    try done.
  injection Heq as Hk Hl. f_equal; [by eapply append_inj_r|by apply IH].
Qed.

(** What [generate_op] returns and what it does to [inserted_keys]. *)
Lemma generate_op_inserted_keys (key : string) st
    (log : list (nat * (string * string))) (t : nat) :
  match (generate_op WORKLOAD key st).1 with
  | Return o =>
      forall lk,
        inserted_keys st = lk ++ synthesized_keys WORKLOAD log ->
        inserted_keys (generate_op WORKLOAD key st).2
        = lk ++ synthesized_keys WORKLOAD (log ++ [(t, o)])
  | Raise _ =>
      inserted_keys (generate_op WORKLOAD key st).2 = inserted_keys st
  end.
Proof.
  unfold generate_op, randrange, synthesized_keys.
  destruct WORKLOAD; repeat case_match; simplify_eq/=; try done;
    intros lk ->;
    rewrite ?app_nil_r, ?insert_keys_snoc_insert, ?app_assoc; try done;
    by rewrite insert_keys_snoc_other.
Qed.

Lemma reachable_inserted_keys st :
  0 < NUM_THREADS cfg ->
  reachable cfg WORKLOAD st ->
  exists lk,
    current_file st = (fun k => k +:+ nl) <$> lk
    /\ inserted_keys st = lk ++ synthesized_keys WORKLOAD (emitted st).
Proof.
  intros HN. induction 1 as [g|st line Hreach (lk & Hfile & Hik)].
  { exists []. by destruct WORKLOAD. }
  pose proof (reachable_wf cfg WORKLOAD st Hreach) as Hwf.
  unfold process_line. destruct (record_key line) as [key|]; [|by eauto].
  assert (forall s : state R,
            wf_state cfg s -> current_thread s < NUM_THREADS cfg ->
            current_file s = current_file st ->
            inserted_keys s = inserted_keys st ->
            emitted s = emitted st ->
            exists lk',
              current_file (emit_op WORKLOAD (pad_key cfg key) s).2
              = (fun k => k +:+ nl) <$> lk'
              /\ inserted_keys (emit_op WORKLOAD (pad_key cfg key) s).2
                 = lk' ++ synthesized_keys WORKLOAD
                            (emitted
                               (emit_op WORKLOAD (pad_key cfg key) s).2))
    as Hemit.
  { intros s Hs Hct Hf Hi He. unfold emit_op.
    pose proof (generate_op_frame WORKLOAD (pad_key cfg key) s) as Hfr.
    pose proof (generate_op_inserted_keys (pad_key cfg key) s (emitted s)
                  (current_thread s)) as Hgen.
    destruct (generate_op WORKLOAD (pad_key cfg key) s) as [r s2].
    simpl in *. destruct Hfr as (_ & _ & F3 & F4 & _ & F6 & F7).
    destruct (lookup_lt_is_Some_2 (worker_files s2) (current_thread s2))
      as [f0 Hf0].
    { rewrite F6, F3, (wf_workers cfg s Hs). done. }
    exists lk. destruct r as [[op qk]|e].
    - rewrite Hf0. simpl. rewrite F4, F7, F3, Hf. split; [done|].
      apply Hgen. by rewrite Hi, He.
    - simpl. by rewrite F4, F7, Hgen, Hf, Hi, He. }
  unfold route_key. destruct (current_state st) eqn:Hph.
  - destruct (wf_load cfg st Hwf Hph) as (_ & Hem & Hcl).
    simpl. rewrite Hcl.
    destruct (counter st + 1 =? INIT_KEYS cfg + 1); simpl; [by eauto|].
    exists (lk ++ [pad_key cfg key]). rewrite fmap_app, Hfile. split; [done|].
    rewrite Hik, Hem.
    assert (synthesized_keys WORKLOAD [] = []) as -> by (by destruct WORKLOAD).
    by rewrite !app_nil_r.
  - destruct (Nat.eqb_spec (current_thread st) (NUM_THREADS cfg)) as [Heq|Hne].
    + simpl. case_match; simpl; [by eauto|].
      apply Hemit; [by apply wf_state_next_round|simpl; lia|done..].
    + apply Hemit; [done| |done..].
      pose proof (wf_cursor cfg st Hwf). lia.
Qed.

End InsertedKeysContents.

(** X11. With at least one worker thread, the list of inserted keys is at
    the end of a pass (and at every point of it) the keys of the load file
    followed, for workload E, by the keys of the insert operations written,
    in the order written: it is only ever appended to.  In workload D the
    thread phase adds nothing to it. *)
Theorem inserted_keys_contents {R : RandomGen} (cfg : config)
    (WORKLOAD : workload) (file_list : list (list (list string)))
    (g : rng_state R) :
  0 < NUM_THREADS cfg ->
  inserted_keys (run_workload cfg WORKLOAD file_list g).2
  = take (INIT_KEYS cfg) (accepted_keys cfg (concat file_list))
    ++ synthesized_keys WORKLOAD
         (emitted (run_workload cfg WORKLOAD file_list g).2).
Proof.
  intros HN.
  destruct (reachable_inserted_keys cfg WORKLOAD
              (run_workload cfg WORKLOAD file_list g).2 HN
              (run_workload_reachable cfg WORKLOAD file_list g))
    as (lk & Hfile & ->).
  f_equal. apply fmap_append_nl_inj. rewrite <- Hfile.
  unfold run_workload. rewrite read_files_load by (done || simpl; lia).
  simpl. by rewrite Nat.sub_0_r.
Qed.

Lemma inserted_keys_contents_witness :
  inserted_keys
    (run_workload (R:=TapeGen) (scenario_cfg 3) E [sample_lines]
       [draw_high; draw_low; 7%N; draw_low; 2%N]).2
  = take (INIT_KEYS (scenario_cfg 3))
      (accepted_keys (scenario_cfg 3) (concat [sample_lines]))
    ++ synthesized_keys E
         (emitted
            (run_workload (R:=TapeGen) (scenario_cfg 3) E [sample_lines]
               [draw_high; draw_low; 7%N; draw_low; 2%N]).2).
Proof.
  apply (inserted_keys_contents (R:=TapeGen) (scenario_cfg 3) E
           [sample_lines] [draw_high; draw_low; 7%N; draw_low; 2%N]).
  simpl. lia.
Defined.

(** ** Keys with the same padded key *)

Section PaddingCollisions.

Lemma append_assoc (s1 s2 s3 : string) :
  (s1 +:+ s2) +:+ s3 = s1 +:+ (s2 +:+ s3).
Proof.
  induction s1 as [|c s1 IH]; [done|].
  by rewrite !append_cons, IH.
Qed.

Lemma str_repeat_add (s : string) (n m : nat) :
  str_repeat s (n + m) = str_repeat s n +:+ str_repeat s m.
Proof.
  induction n as [|n IH]; [done|].
  simpl. by rewrite IH, append_assoc.
Qed.

Lemma pad_key_trailing_filler (cfg : config) (key : string) (n : nat) :
  String.length key + n <= KEY_LENGTH cfg ->
  pad_key cfg (key +:+ str_repeat "/" n) = pad_key cfg key.
Proof.
  intros Hfit.
  rewrite !pad_key_short
    by (rewrite ?length_append, ?length_str_repeat; simpl; lia).
  rewrite length_append, length_str_repeat, append_assoc, <- str_repeat_add.
  simpl. do 2 f_equal. lia.
Qed.

End PaddingCollisions.

(** X12. Which raw keys get the same padded key.  Two keys are padded to
    the same key only when the longer one is the shorter one followed by
    filler characters '/' alone; and a key followed by filler characters is
    indeed padded to the same key as the key itself, as long as it fits in
    [KEY_LENGTH].  Keys of the same length are never confused. *)
Theorem pad_key_collisions (cfg : config) (k1 k2 : string) :
  String.length k1 <= String.length k2 ->
  (pad_key cfg k1 = pad_key cfg k2 ->
   k2 = k1 +:+ str_repeat "/" (String.length k2 - String.length k1))
  /\ (String.length k2 <= KEY_LENGTH cfg ->
      k2 = k1 +:+ str_repeat "/" (String.length k2 - String.length k1) ->
      pad_key cfg k1 = pad_key cfg k2)
  /\ (String.length k1 = String.length k2 ->
      pad_key cfg k1 = pad_key cfg k2 -> k1 = k2).
Proof.
  intros Hle.
  assert (pad_key cfg k1 = pad_key cfg k2 ->
          k2 = k1 +:+ str_repeat "/" (String.length k2 - String.length k1))
    as Hfwd.
  { intros Hpad.
    destruct (Nat.le_gt_cases (String.length k2) (KEY_LENGTH cfg)) as [H2|H2].
    - rewrite !pad_key_short in Hpad by lia.
      replace (KEY_LENGTH cfg - String.length k1)
        with ((String.length k2 - String.length k1)
              + (KEY_LENGTH cfg - String.length k2)) in Hpad by lia.
      rewrite str_repeat_add, <- append_assoc in Hpad.
      symmetry. by eapply append_inj_r.
    - destruct (Nat.le_gt_cases (String.length k1) (KEY_LENGTH cfg))
        as [H1|H1].
      + apply (f_equal String.length) in Hpad.
        rewrite !length_pad_key in Hpad. lia.
      + rewrite !pad_key_long in Hpad by done. subst k2.
        rewrite Nat.sub_diag. simpl. by rewrite append_empty_r. }
  split; [done|]. split.
  - intros H2 Hk2. rewrite Hk2. symmetry.
    apply pad_key_trailing_filler. lia.
  - intros Hlen Hpad. rewrite (Hfwd Hpad), Hlen, Nat.sub_diag. simpl.
    by rewrite append_empty_r.
Qed.

Lemma pad_key_collisions_witness :
  (pad_key (scenario_cfg 3) "keyA" = pad_key (scenario_cfg 3) "keyA/" ->
   "keyA/"
   = "keyA" +:+ str_repeat "/" (String.length "keyA/" - String.length "keyA"))
  /\ (String.length "keyA/" <= KEY_LENGTH (scenario_cfg 3) ->
      "keyA/"
      = "keyA"
        +:+ str_repeat "/" (String.length "keyA/" - String.length "keyA") ->
      pad_key (scenario_cfg 3) "keyA" = pad_key (scenario_cfg 3) "keyA/")
  /\ (String.length "keyA" = String.length "keyA/" ->
      pad_key (scenario_cfg 3) "keyA" = pad_key (scenario_cfg 3) "keyA/" ->
      "keyA" = "keyA/").
Proof.
  apply (pad_key_collisions (scenario_cfg 3) "keyA" "keyA/").
  simpl. lia.
Defined.

(** ** More input files *)

Section InputExtension.
Context {R : RandomGen}.
Variable cfg : config.
Variable WORKLOAD : workload.
Implicit Type st : state R.

Lemma Forall2_prefix_refl (l : list file) : Forall2 prefix l l.
Proof. induction l; by constructor. Qed.

Lemma alter_snoc_prefix (c : string) (i : nat) (l : list file) :
  Forall2 prefix l (alter (fun f => f ++ [c]) i l).
Proof.
  revert i. induction l as [|f l IH]; intros [|i]; simpl; constructor.
  - by apply prefix_app_r.
  - apply Forall2_prefix_refl.
  - done.
  - apply IH.
Qed.

Lemma Forall2_prefix_trans (l1 l2 l3 : list file) :
  Forall2 prefix l1 l2 -> Forall2 prefix l2 l3 -> Forall2 prefix l1 l3.
Proof.
  intros H12. revert l3.
  induction H12 as [|f1 f2 l1 l2 Hf H12 IH]; intros l3 H23;
    inversion H23; subst; constructor.
  - by etrans.
  - by apply IH.
Qed.

Lemma extends_refl st : extends st st.
Proof. constructor; done || apply Forall2_prefix_refl. Qed.

Lemma extends_trans st1 st2 st3 :
  extends st1 st2 -> extends st2 st3 -> extends st1 st3.
Proof.
  intros [A1 A2 A3 A4] [B1 B2 B3 B4].
  constructor; (by etrans) || (by eapply Forall2_prefix_trans).
Qed.

Lemma generate_op_extends (key : string) st :
  extends st (generate_op WORKLOAD key st).2.
Proof.
  unfold generate_op, randrange.
  destruct WORKLOAD; repeat case_match; simplify_eq/=;
    constructor; simpl; try done; try apply Forall2_prefix_refl;
    by apply prefix_app_r.
Qed.

Lemma emit_op_extends (key : string) st :
  extends st (emit_op WORKLOAD key st).2.
Proof.
  unfold emit_op.
  pose proof (generate_op_extends key st) as Hgen.
  destruct (generate_op WORKLOAD key st) as [[[op qk]|e] st2]; simpl in Hgen;
    [|done].
  destruct (worker_files st2 !! current_thread st2); simpl; [|done].
  eapply extends_trans; [exact Hgen|].
  constructor; simpl; try done.
  - apply alter_snoc_prefix.
  - by apply prefix_app_r.
Qed.

Lemma route_key_extends (key : string) st :
  extends st (route_key cfg WORKLOAD key st).2.
Proof.
  unfold route_key.
  destruct (current_state st).
  - repeat case_match; simpl; constructor; simpl; try done;
      try apply Forall2_prefix_refl; by apply prefix_app_r.
  - repeat case_match; try apply emit_op_extends.
    + constructor; simpl; done || apply Forall2_prefix_refl.
    + eapply extends_trans; [|apply emit_op_extends].
      constructor; simpl; done || apply Forall2_prefix_refl.
Qed.

Lemma process_line_extends (line : list string) st :
  extends st (process_line cfg WORKLOAD line st).2.
Proof.
  unfold process_line. destruct (record_key line).
  - apply route_key_extends.
  - apply extends_refl.
Qed.

Lemma read_file_extends (f : list (list string)) st :
  extends st (read_file cfg WORKLOAD f st).2.
Proof.
  revert st. induction f as [|line rest IH]; intros st; simpl.
  - apply extends_refl.
  - pose proof (process_line_extends line st) as Hstep.
    destruct (process_line cfg WORKLOAD line st) as [[| |e] st2];
      simpl in Hstep; try done.
    eapply extends_trans; [exact Hstep|apply IH].
Qed.

Lemma read_files_extends (file_list : list (list (list string))) st :
  extends st (read_files cfg WORKLOAD file_list st).2.
Proof.
  revert st. induction file_list as [|f rest IH]; intros st; simpl.
  - apply extends_refl.
  - pose proof (read_file_extends f st) as Hstep.
    destruct (read_file cfg WORKLOAD f st) as [[e|] st2]; simpl in Hstep;
      [done|].
    eapply extends_trans; [exact Hstep|apply IH].
Qed.

(** The [for] loop over a file list in two parts. *)
Lemma read_files_app (l1 l2 : list (list (list string))) st :
  read_files cfg WORKLOAD (l1 ++ l2) st
  = match read_files cfg WORKLOAD l1 st with
    | (None, st') => read_files cfg WORKLOAD l2 st'
    | (Some e, st') => (Some e, st')
    end.
Proof.
  revert st. induction l1 as [|f l1 IH]; intros st; simpl; [done|].
  destruct (read_file cfg WORKLOAD f st) as [[e|] st2]; [done|apply IH].
Qed.

End InputExtension.

(** X13. The converter only ever appends.  When more input files are put
    at the end of the file list, every output of the pass on the shorter
    list (the load file, each worker file, and also the list of inserted
    keys) is a prefix of the same output on the longer list, from the same
    generator state; and a pass that ended with an exception ends the same
    way, in the same state, whatever follows in the list. *)
Theorem more_files_only_append {R : RandomGen} (cfg : config)
    (WORKLOAD : workload) (file_list more : list (list (list string)))
    (g : rng_state R) :
  extends (run_workload cfg WORKLOAD file_list g).2
          (run_workload cfg WORKLOAD (file_list ++ more) g).2
  /\ (forall e,
        (run_workload cfg WORKLOAD file_list g).1 = Some e ->
        run_workload cfg WORKLOAD (file_list ++ more) g
        = run_workload cfg WORKLOAD file_list g).
Proof.
  unfold run_workload. rewrite read_files_app.
  destruct (read_files cfg WORKLOAD file_list (init_state cfg g))
    as [[e|] st1]; simpl.
  - split; [apply extends_refl|done].
  - split; [apply read_files_extends|done].
Qed.

(** ** The order of the inserts *)

Section InsertOrder.
Context {R : RandomGen}.
Variable cfg : config.
Variable WORKLOAD : workload.
Implicit Type st : state R.

Lemma drop_sublist_mono {A : Type} (m n : nat) (l : list A) :
  m <= n -> drop n l `sublist_of` drop m l.
Proof.
  intros Hmn. replace n with (m + (n - m)) by lia.
  rewrite <- drop_drop. apply sublist_drop.
Qed.

Lemma generate_op_insert_key (key : string) st (op qk : string) :
  (generate_op WORKLOAD key st).1 = Return (op, qk) ->
  op = "i" -> qk = key.
Proof.
  unfold generate_op, randrange.
  destruct WORKLOAD; repeat case_match; simplify_eq/=;
    intros Hret Hop; by simplify_eq.
Qed.

Lemma emit_op_insert_order (key : string) st :
  exists l,
    insert_keys (emitted (emit_op WORKLOAD key st).2)
    = insert_keys (emitted st) ++ l
    /\ l `sublist_of` [key].
Proof.
  unfold emit_op.
  pose proof (generate_op_frame WORKLOAD key st) as Hfr.
  pose proof (generate_op_insert_key key st) as Hins.
  destruct (generate_op WORKLOAD key st) as [[[op qk]|e] st2];
    simpl in Hfr, Hins; destruct Hfr as (_ & _ & _ & _ & _ & _ & F7).
  - destruct (worker_files st2 !! current_thread st2); simpl.
    + rewrite insert_keys_snoc, F7. eexists; split; [done|].
      destruct (String.eqb_spec op "i") as [Hop|Hop]; [|apply sublist_nil_l].
      by rewrite (Hins op qk eq_refl Hop).
    + exists []. rewrite app_nil_r, F7. split; [done|apply sublist_nil_l].
  - simpl. exists []. rewrite app_nil_r, F7.
    split; [done|apply sublist_nil_l].
Qed.

Lemma route_key_thread_insert_order (key : string) st :
  current_state st = thread ->
  exists l,
    insert_keys (emitted (route_key cfg WORKLOAD key st).2)
    = insert_keys (emitted st) ++ l
    /\ l `sublist_of` [key].
Proof.
  intros Hph. unfold route_key. rewrite Hph.
  repeat case_match; try apply emit_op_insert_order.
  - exists []. rewrite app_nil_r. split; [done|apply sublist_nil_l].
  - apply (emit_op_insert_order key
             (set_counter (set_current_thread st 0) (counter st + 1))).
Qed.

Lemma route_key_insert_order (key : string) st :
  exists l,
    insert_keys (emitted (route_key cfg WORKLOAD key st).2)
    = insert_keys (emitted st) ++ l
    /\ l `sublist_of` drop (load_pending cfg st) [key]
    /\ load_pending cfg st - 1
       <= load_pending cfg (route_key cfg WORKLOAD key st).2.
Proof.
  destruct (current_state st) eqn:Hph.
  - unfold route_key, load_pending. rewrite Hph.
    exists []. rewrite app_nil_r.
    repeat case_match; simpl in *;
      (split; [done|split; [apply sublist_nil_l|]]);
      try congruence; try lia.
    all: match goal with
         | H : (_ =? _) = true |- _ => apply Nat.eqb_eq in H
         end; lia.
  - destruct (route_key_thread_insert_order key st Hph) as (l & Hl & Hsub).
    exists l. unfold load_pending at 1 2. rewrite Hph. simpl.
    split; [done|split; [done|apply Nat.le_0_l]].
Qed.

Lemma accepted_keys_singleton (line : list string) :
  accepted_keys cfg [line]
  = match record_key line with
    | Some key => [pad_key cfg key]
    | None => []
    end.
Proof. unfold accepted_keys. simpl. by destruct (record_key line). Qed.

Lemma process_line_insert_order (line : list string) st :
  exists l,
    insert_keys (emitted (process_line cfg WORKLOAD line st).2)
    = insert_keys (emitted st) ++ l
    /\ l `sublist_of` drop (load_pending cfg st) (accepted_keys cfg [line])
    /\ load_pending cfg st - length (accepted_keys cfg [line])
       <= load_pending cfg (process_line cfg WORKLOAD line st).2.
Proof.
  unfold process_line. rewrite accepted_keys_singleton.
  destruct (record_key line) as [key|]; simpl.
  - apply route_key_insert_order.
  - exists []. rewrite app_nil_r.
    split; [done|split; [apply sublist_nil_l|lia]].
Qed.

Lemma accepted_keys_cons (line : list string) (rest : list (list string)) :
  accepted_keys cfg (line :: rest)
  = accepted_keys cfg [line] ++ accepted_keys cfg rest.
Proof. unfold accepted_keys. apply (omap_app _ [line] rest). Qed.

Lemma read_file_insert_order (f : list (list string)) st :
  exists l,
    insert_keys (emitted (read_file cfg WORKLOAD f st).2)
    = insert_keys (emitted st) ++ l
    /\ l `sublist_of` drop (load_pending cfg st) (accepted_keys cfg f)
    /\ load_pending cfg st - length (accepted_keys cfg f)
       <= load_pending cfg (read_file cfg WORKLOAD f st).2.
Proof.
  revert st. induction f as [|line rest IH]; intros st.
  - simpl. exists []. rewrite app_nil_r.
    split; [done|split; [apply sublist_nil_l|lia]].
  - rewrite accepted_keys_cons, drop_app, length_app. cbn [read_file].
    destruct (process_line_insert_order line st) as (l1 & Hl1 & Hs1 & Hp1).
    destruct (process_line cfg WORKLOAD line st) as [[| |e] st2];
      cbn [snd] in *.
    + destruct (IH st2) as (l2 & Hl2 & Hs2 & Hp2).
      exists (l1 ++ l2). rewrite Hl2, Hl1, app_assoc.
      split; [done|split; [|lia]].
      apply sublist_app; [done|].
      etrans; [exact Hs2|]. apply drop_sublist_mono. lia.
    + exists l1. split; [done|split; [|lia]].
      by apply sublist_inserts_r.
    + exists l1. split; [done|split; [|lia]].
      by apply sublist_inserts_r.
Qed.

Lemma read_files_insert_order (file_list : list (list (list string))) st :
  exists l,
    insert_keys (emitted (read_files cfg WORKLOAD file_list st).2)
    = insert_keys (emitted st) ++ l
    /\ l `sublist_of`
         drop (load_pending cfg st) (accepted_keys cfg (concat file_list)).
Proof.
  revert st. induction file_list as [|f rest IH]; intros st.
  - simpl. exists []. rewrite app_nil_r. split; [done|apply sublist_nil_l].
  - cbn [read_files concat]. rewrite accepted_keys_app, drop_app.
    destruct (read_file_insert_order f st) as (l1 & Hl1 & Hs1 & Hp1).
    destruct (read_file cfg WORKLOAD f st) as [[e|] st2]; cbn [snd] in *.
    + exists l1. split; [done|]. by apply sublist_inserts_r.
    + destruct (IH st2) as (l2 & Hl2 & Hs2).
      exists (l1 ++ l2). rewrite Hl2, Hl1, app_assoc. split; [done|].
      apply sublist_app; [done|].
      etrans; [exact Hs2|]. apply drop_sublist_mono. lia.
Qed.

End InsertOrder.

(** X14. The insert operations follow the input.  The keys of the insert
    operations of a pass, in the order in which they were written, are a
    subsequence of the padded keys of the accepted records that come after
    the first [INIT_KEYS + 1] (the load records and the record of the
    transition): an insert always carries the key of the record at which it
    was synthesized, no record gives more than one insert, and no insert
    is made for a load record or for the record of the transition. *)
Theorem inserts_follow_input_order {R : RandomGen} (cfg : config)
    (WORKLOAD : workload) (file_list : list (list (list string)))
    (g : rng_state R) :
  insert_keys (emitted (run_workload cfg WORKLOAD file_list g).2)
  `sublist_of`
  drop (INIT_KEYS cfg + 1) (accepted_keys cfg (concat file_list)).
Proof.
  unfold run_workload.
  destruct (read_files_insert_order cfg WORKLOAD file_list (init_state cfg g))
    as (l & Hl & Hsub).
  rewrite Hl. simpl.
  unfold load_pending in Hsub. simpl in Hsub.
  by rewrite Nat.sub_0_r in Hsub.
Qed.

(** ** A pass without worker files *)

Section NoWorkerFiles.
Context {R : RandomGen}.
Variable cfg : config.
Variable WORKLOAD : workload.
Implicit Type st : state R.
Hypothesis no_threads : NUM_THREADS cfg = 0.

Lemma emit_op_no_files (key : string) st :
  worker_files st = [] ->
  exists e, (emit_op WORKLOAD key st).1 = Raised e
            /\ (WORKLOAD = D -> e = IndexError).
Proof.
  intros Hwf. unfold emit_op.
  pose proof (generate_op_frame WORKLOAD key st) as Hfr.
  assert (WORKLOAD = D ->
          exists o, (generate_op WORKLOAD key st).1 = Return o) as Hret.
  { intros ->. apply generate_op_D_returns. }
  destruct (generate_op WORKLOAD key st) as [[[op qk]|e] st2];
    simpl in Hfr, Hret; destruct Hfr as (_ & _ & _ & _ & _ & F6 & _).
  - rewrite F6, Hwf. simpl. by exists IndexError.
  - exists e. split; [done|]. intros HD. by destruct (Hret HD).
Qed.

Lemma route_key_no_threads (key : string) st :
  no_worker_state cfg st ->
  match current_state st with
  | load =>
      (route_key cfg WORKLOAD key st).1 = Continue
      /\ no_worker_state cfg (route_key cfg WORKLOAD key st).2
      /\ load_pending cfg (route_key cfg WORKLOAD key st).2
         = load_pending cfg st - 1
      /\ 1 <= load_pending cfg st
  | thread =>
      (PER_THREAD_KEYS cfg <= 2 ->
       (route_key cfg WORKLOAD key st).1 = Break
       /\ no_worker_state cfg (route_key cfg WORKLOAD key st).2
       /\ current_state (route_key cfg WORKLOAD key st).2 = thread)
      /\ (3 <= PER_THREAD_KEYS cfg ->
          exists e, (route_key cfg WORKLOAD key st).1 = Raised e
                    /\ (WORKLOAD = D -> e = IndexError))
  end.
Proof.
  intros (Hwf & Hct & Hst). unfold route_key, load_pending, no_worker_state.
  destruct (current_state st) eqn:Hph.
  - destruct Hst as [Hc Hcl]. simpl.
    destruct (Nat.eqb_spec (counter st + 1) (INIT_KEYS cfg + 1)) as [Heq|Hne];
      simpl.
    + repeat split; try done; try lia.
    + rewrite Hcl. simpl. rewrite Hph.
      repeat split; try done; lia.
  - rewrite Hct, no_threads. simpl. split.
    + intros Hper.
      destruct (Z.leb_spec (Z.of_nat (PER_THREAD_KEYS cfg) - 1)
                  (Z.of_nat (counter st + 1))) as [_|Hlt]; [|lia].
      simpl. rewrite Hph. repeat split; try done. by right.
    + intros Hper. destruct Hst as [Hc|Hc]; [|lia].
      destruct (Z.leb_spec (Z.of_nat (PER_THREAD_KEYS cfg) - 1)
                  (Z.of_nat (counter st + 1))) as [Hle|_]; [lia|].
      by apply emit_op_no_files.
Qed.

Lemma read_file_no_threads (f : list (list string)) st :
  no_worker_state cfg st ->
  (length (accepted_keys cfg f) <= load_pending cfg st ->
   (read_file cfg WORKLOAD f st).1 = None
   /\ no_worker_state cfg (read_file cfg WORKLOAD f st).2
   /\ load_pending cfg (read_file cfg WORKLOAD f st).2
      = load_pending cfg st - length (accepted_keys cfg f))
  /\ (load_pending cfg st < length (accepted_keys cfg f) ->
      PER_THREAD_KEYS cfg <= 2 ->
      (read_file cfg WORKLOAD f st).1 = None
      /\ no_worker_state cfg (read_file cfg WORKLOAD f st).2
      /\ load_pending cfg (read_file cfg WORKLOAD f st).2 = 0)
  /\ (load_pending cfg st < length (accepted_keys cfg f) ->
      3 <= PER_THREAD_KEYS cfg ->
      exists e, (read_file cfg WORKLOAD f st).1 = Some e
                /\ (WORKLOAD = D -> e = IndexError)).
Proof.
  revert st. induction f as [|line rest IH]; intros st Hst.
  { simpl. split; [|split]; [|intros Hlt; lia..].
    intros _. split; [done|split; [done|lia]]. }
  rewrite accepted_keys_cons, length_app, accepted_keys_singleton.
  cbn [read_file]. unfold process_line.
  destruct (record_key line) as [key|]; [|by apply IH].
  cbn [length].
  pose proof (route_key_no_threads (pad_key cfg key) st Hst) as Hstep.
  destruct (current_state st) eqn:Hph.
  - destruct Hstep as (Hc & Hst2 & Hp2 & Hp1).
    destruct (route_key cfg WORKLOAD (pad_key cfg key) st) as [c st2].
    cbn [fst snd] in *. subst c.
    destruct (IH st2 Hst2) as (IH1 & IH2 & IH3).
    split; [|split].
    + intros Hle. destruct IH1 as (H1 & H2 & H3); [lia|].
      split; [done|split; [done|lia]].
    + intros Hlt Hper. apply IH2; [lia|done].
    + intros Hlt Hper. apply IH3; [lia|done].
  - assert (load_pending cfg st = 0) as Hp0
      by (unfold load_pending; by rewrite Hph).
    destruct Hstep as [Hbr Hraise]. split; [|split].
    + intros Hle. lia.
    + intros _ Hper. destruct (Hbr Hper) as (Hc & Hst2 & Hph2).
      destruct (route_key cfg WORKLOAD (pad_key cfg key) st) as [c st2].
      cbn [fst snd] in *. subst c.
      split; [done|split; [done|]]. unfold load_pending. simpl.
      by rewrite Hph2.
    + intros _ Hper. destruct (Hraise Hper) as (e & Hc & He).
      destruct (route_key cfg WORKLOAD (pad_key cfg key) st) as [c st2].
      cbn [fst snd] in *. subst c. by exists e.
Qed.

Lemma read_files_no_threads (file_list : list (list (list string))) st :
  no_worker_state cfg st ->
  (length (accepted_keys cfg (concat file_list)) <= load_pending cfg st
   \/ PER_THREAD_KEYS cfg <= 2 ->
   (read_files cfg WORKLOAD file_list st).1 = None)
  /\ (load_pending cfg st < length (accepted_keys cfg (concat file_list)) ->
      3 <= PER_THREAD_KEYS cfg ->
      exists e, (read_files cfg WORKLOAD file_list st).1 = Some e
                /\ (WORKLOAD = D -> e = IndexError)).
Proof.
  revert st. induction file_list as [|f rest IH]; intros st Hst.
  { simpl. split; [done|]. lia. }
  cbn [read_files concat]. rewrite accepted_keys_app, length_app.
  destruct (read_file_no_threads f st Hst) as (F1 & F2 & F3).
  destruct (Nat.le_gt_cases (length (accepted_keys cfg f))
              (load_pending cfg st)) as [Hle|Hgt].
  - destruct (F1 Hle) as (Hr & Hst2 & Hp2).
    destruct (read_file cfg WORKLOAD f st) as [r st2].
    cbn [fst snd] in *. subst r.
    destruct (IH st2 Hst2) as [IH1 IH2]. split.
    + intros [Hall|Hper]; apply IH1; [left; lia|by right].
    + intros Hlt Hper. apply IH2; [lia|done].
  - split.
    + intros [Hall|Hper]; [lia|].
      destruct (F2 Hgt Hper) as (Hr & Hst2 & Hp2).
      destruct (read_file cfg WORKLOAD f st) as [r st2].
      cbn [fst snd] in *. subst r.
      apply (IH st2 Hst2). by right.
    + intros _ Hper. destruct (F3 Hgt Hper) as (e & Hr & He).
      destruct (read_file cfg WORKLOAD f st) as [r st2].
      cbn [fst snd] in *. subst r. by exists e.
Qed.

Lemma no_worker_state_init (g : rng_state R) :
  no_worker_state cfg (init_state cfg g).
Proof.
  unfold no_worker_state, init_state. simpl. rewrite no_threads. simpl.
  repeat split; try done. lia.
Qed.

End NoWorkerFiles.

(** X15. When a pass fails for want of a worker file.  The pass for
    workload D raises [IndexError] exactly when there is no worker file
    ([NUM_THREADS = 0]), the bound of the rounds does not end the loop at
    once ([PER_THREAD_KEYS >= 3]) and the input holds an accepted record
    after the record of the transition; it never raises [ValueError].  With
    no worker file a pass of either workload ends normally exactly when no
    operation is ever due: the input ends with the transition record at the
    latest, or [PER_THREAD_KEYS <= 2]. *)
Theorem pass_fails_without_worker_files {R : RandomGen} (cfg : config)
    (file_list : list (list (list string))) (g : rng_state R) :
  ((run_workload cfg D file_list g).1 = Some IndexError
   <-> NUM_THREADS cfg = 0 /\ 3 <= PER_THREAD_KEYS cfg
       /\ INIT_KEYS cfg + 1 < length (accepted_keys cfg (concat file_list)))
  /\ (run_workload cfg D file_list g).1 <> Some ValueError
  /\ (forall WORKLOAD,
        NUM_THREADS cfg = 0 ->
        (run_workload cfg WORKLOAD file_list g).1 = None
        <-> length (accepted_keys cfg (concat file_list)) <= INIT_KEYS cfg + 1
            \/ PER_THREAD_KEYS cfg <= 2).
Proof.
  unfold run_workload.
  assert (forall W, NUM_THREADS cfg = 0 ->
            (length (accepted_keys cfg (concat file_list)) <= INIT_KEYS cfg + 1
             \/ PER_THREAD_KEYS cfg <= 2 ->
             (read_files cfg W file_list (init_state cfg g)).1 = None)
            /\ (INIT_KEYS cfg + 1
                < length (accepted_keys cfg (concat file_list)) ->
                3 <= PER_THREAD_KEYS cfg ->
                exists e,
                  (read_files cfg W file_list (init_state cfg g)).1 = Some e
                  /\ (W = D -> e = IndexError))) as Hno.
  { intros W HN.
    pose proof (read_files_no_threads cfg W HN file_list (init_state cfg g)
                  (no_worker_state_init cfg HN g)) as H.
    unfold load_pending in H. simpl in H. by rewrite Nat.sub_0_r in H. }
  assert (0 < NUM_THREADS cfg ->
          (read_files cfg D file_list (init_state cfg g)).1 = None) as Hsome.
  { intros HN.
    apply read_files_no_exception; [done|by left|apply reachable_init]. }
  assert (forall W, NUM_THREADS cfg = 0 ->
            (read_files cfg W file_list (init_state cfg g)).1 = None ->
            length (accepted_keys cfg (concat file_list)) <= INIT_KEYS cfg + 1
            \/ PER_THREAD_KEYS cfg <= 2) as Hback.
  { intros W HN Hr. destruct (Hno W HN) as [_ Hraise].
    destruct (Nat.le_gt_cases (PER_THREAD_KEYS cfg) 2) as [Hper|Hper];
      [by right|].
    destruct (Nat.le_gt_cases
                (length (accepted_keys cfg (concat file_list)))
                (INIT_KEYS cfg + 1)) as [HA|HA]; [by left|].
    destruct (Hraise HA Hper) as (e & He & _). congruence. }
  assert ((read_files cfg D file_list (init_state cfg g)).1 = None
          \/ (read_files cfg D file_list (init_state cfg g)).1
             = Some IndexError
             /\ NUM_THREADS cfg = 0 /\ 3 <= PER_THREAD_KEYS cfg
             /\ INIT_KEYS cfg + 1
                < length (accepted_keys cfg (concat file_list))) as Hcases.
  { destruct (Nat.eq_dec (NUM_THREADS cfg) 0) as [HN|HN];
      [|left; apply Hsome; lia].
    destruct (Hno D HN) as [Hnone Hraise].
    destruct (Nat.le_gt_cases (PER_THREAD_KEYS cfg) 2) as [Hper|Hper];
      [left; apply Hnone; by right|].
    destruct (Nat.le_gt_cases
                (length (accepted_keys cfg (concat file_list)))
                (INIT_KEYS cfg + 1)) as [HA|HA];
      [left; apply Hnone; by left|].
    destruct (Hraise HA Hper) as (e & He & HD).
    right. rewrite He, (HD eq_refl). done. }
  split; [split|split].
  - intros Hfail. destruct Hcases as [Hnone|(_ & Hrest)]; [congruence|done].
  - intros (HN & Hper & HA). destruct (Hno D HN) as [_ Hraise].
    destruct (Hraise HA Hper) as (e & He & HD).
    by rewrite He, (HD eq_refl).
  - intros Hfail. destruct Hcases as [Hnone|(Hie & _)]; congruence.
  - intros W HN. split; [apply Hback; done|apply Hno; done].
Qed.

(** ** Workload E: a scan with no key to scan from *)

Section EmptyInsertedKeys.
Context {R : RandomGen}.
Variable cfg : config.
Implicit Type st : state R.

(** With [INIT_KEYS >= 1] the load file holds a record in every state of
    the thread phase. *)
Lemma thread_phase_load_written st :
  0 < INIT_KEYS cfg ->
  reachable cfg E st -> current_state st = thread ->
  current_file st <> [].
Proof.
  intros Hinit Hreach Hph Hnil.
  destruct (reachable_load_counter cfg E st Hreach) as [_ Hlen].
  specialize (Hlen Hph). rewrite Hnil in Hlen. simpl in Hlen. lia.
Qed.

Lemma process_line_no_value_error (line : list string) st :
  0 < INIT_KEYS cfg ->
  reachable cfg E st ->
  (process_line cfg E line st).1 <> Raised ValueError.
Proof.
  intros Hinit Hreach. destruct (current_state st) eqn:Hph.
  - unfold process_line. destruct (record_key line) as [key|]; [|done].
    unfold route_key. rewrite Hph.
    destruct (wf_load cfg st (reachable_wf cfg E st Hreach) Hph)
      as (_ & _ & Hcl).
    simpl. rewrite Hcl. by case_match.
  - by apply load_written_no_value_error, thread_phase_load_written.
Qed.

Lemma read_file_no_value_error (f : list (list string)) st :
  0 < INIT_KEYS cfg ->
  reachable cfg E st ->
  (read_file cfg E f st).1 <> Some ValueError.
Proof.
  intros Hinit. revert st.
  induction f as [|line rest IH]; intros st Hreach; simpl; [done|].
  pose proof (process_line_no_value_error line st Hinit Hreach) as Hstep.
  pose proof (reachable_step cfg E st line Hreach) as Hnext.
  destruct (process_line cfg E line st) as [[| |e] st2]; simpl in *;
    [by apply IH|done|congruence].
Qed.

Lemma read_files_no_value_error (file_list : list (list (list string))) st :
  0 < INIT_KEYS cfg ->
  reachable cfg E st ->
  (read_files cfg E file_list st).1 <> Some ValueError.
Proof.
  intros Hinit. revert st.
  induction file_list as [|f rest IH]; intros st Hreach; simpl; [done|].
  pose proof (read_file_no_value_error f st Hinit Hreach) as Hstep.
  pose proof (read_file_reachable cfg E f st Hreach) as Hnext.
  destruct (read_file cfg E f st) as [[e|] st2]; simpl in *;
    [congruence|by apply IH].
Qed.

(** With [INIT_KEYS = 0] the load phase writes nothing. *)
Lemma empty_load_file st :
  INIT_KEYS cfg = 0 -> reachable cfg E st -> current_file st = [].
Proof.
  intros Hinit Hreach.
  destruct (reachable_load_counter cfg E st Hreach) as [Hl Ht].
  apply nil_length_inv.
  destruct (current_state st); [destruct Hl; [done|]; lia|].
  rewrite Ht by done. done.
Qed.

End EmptyInsertedKeys.

(** C10, as the code has it.  In workload E a draw below 0.9 with an empty
    [inserted_keys] makes [randrange] raise ValueError.  The error branch is
    out of reach once the load phase has written a record to the load file:
    then [inserted_keys] is not empty in any later state and no step raises
    ValueError.  With [INIT_KEYS >= 1] this holds at every call of the
    synthesizer, and no pass of workload E raises ValueError.  That an
    accepted record was processed in the load phase is not enough: with
    [INIT_KEYS = 0] the load phase takes the first accepted record, which
    only switches the phase, the load file and [inserted_keys] stay empty,
    and the synthesizer is called with an empty [inserted_keys]. *)
Theorem scan_on_empty_inserted_keys {R : RandomGen} (cfg : config) :
  (forall (key : string) (st : state R),
     inserted_keys st = [] ->
     lt_0_9 (rng_random R (rng st)).1 = true ->
     (generate_op E key st).1 = Raise ValueError)
  /\ (forall st : state R,
        reachable cfg E st -> current_file st <> [] ->
        inserted_keys st <> []
        /\ (forall key, (generate_op E key st).1 <> Raise ValueError)
        /\ (forall line, (process_line cfg E line st).1 <> Raised ValueError))
  /\ (0 < INIT_KEYS cfg ->
      (forall st : state R,
         reachable cfg E st -> current_state st = thread ->
         current_file st <> [] /\ inserted_keys st <> [])
      /\ (forall (st : state R) line,
            reachable cfg E st ->
            (process_line cfg E line st).1 <> Raised ValueError)
      /\ (forall file_list (g : rng_state R),
            (run_workload cfg E file_list g).1 <> Some ValueError))
  /\ (INIT_KEYS cfg = 0 ->
      (forall st : state R, reachable cfg E st -> current_file st = [])
      /\ (forall (g : rng_state R) line key,
            record_key line = Some key ->
            current_state (init_state cfg g) = load
            /\ (process_line cfg E line (init_state cfg g)).1 = Continue
            /\ current_state (process_line cfg E line (init_state cfg g)).2
               = thread
            /\ inserted_keys (process_line cfg E line (init_state cfg g)).2
               = [])).
Proof.
  split; [intros key st; apply generate_op_E_empty_raises|].
  split; [intros st; apply load_written_no_value_error|].
  split.
  - intros Hinit. split; [|split].
    + intros st Hreach Hph.
      pose proof (thread_phase_load_written cfg st Hinit Hreach Hph) as Hfile.
      split; [done|].
      by apply (load_written_no_value_error cfg st Hreach Hfile).
    + intros st line Hreach. by apply process_line_no_value_error.
    + intros file_list g. apply read_files_no_value_error; [done|].
      apply reachable_init.
  - intros Hinit. split; [intros st; by apply empty_load_file|].
    intros g line key Hrec. unfold process_line, route_key.
    rewrite Hrec. simpl. rewrite Hinit. simpl. done.
Qed.
